(** * Lilith: values, environments, evaluator and builtins

    A shallow embedding of the evaluation core of the Lilith interpreter
    and the properties its specification states about it.

    The sources come in two generations.  [lval.c], [lenv.c] and the
    arithmetic unit (called [Sums] below, the file that defines
    [lenv_add_builtins_sums]) keep list cells in a linked list and
    distinguish builtin from user functions.  The evaluator unit (called
    [Eval] below, the file that defines [lval_eval]) is the earlier
    generation: cells live in an array, there is one function tag, and the
    unit carries its own copy of the arithmetic operations.

    Layout: first every definition (values, arithmetic, environments,
    builtins, evaluator, then the memory-level model of copying and
    releasing), after that the lemmas and theorems: those the
    specification states, then further properties of the code. *)

From Stdlib Require Import ZArith String List SpecFloat Lia.
From stdpp Require Import base option gmap strings list pretty.

Local Open Scope string_scope.
Local Open Scope Z_scope.

Set Warnings "-register-all".

(** ** Outcomes of a C computation

    [Ret v] is a normal return.  [Undef] stands for an execution the C
    language gives no meaning to at the level of values: an integer
    division or remainder the hardware traps on, reading a union member
    that was not the one stored, indexing past the block of the cell
    array, dereferencing a null pointer.  [Timeout] is only produced by the
    fuel-indexed evaluator when its fuel runs out. *)

Inductive outcome (A : Type) : Type :=
| Ret (a : A)
| Undef
| Timeout.

Arguments Ret {A} a.
Arguments Undef {A}.
Arguments Timeout {A}.

#[global] Instance outcome_ret : MRet outcome := fun _ a => Ret a.
#[global] Instance outcome_bind : MBind outcome := fun _ _ f m =>
  match m with
  | Ret a => f a
  | Undef => Undef
  | Timeout => Timeout
  end.

(** ** Machine numbers *)

(** [long] is 64 bits wide, two's complement; arithmetic that leaves the
    range wraps around. *)
Definition LONG_MIN : Z := - 2 ^ 63.
Definition LONG_MAX : Z := 2 ^ 63 - 1.
Definition wrap_long (z : Z) : Z := (z + 2 ^ 63) mod 2 ^ 64 - 2 ^ 63.

(** [double] is IEEE 754 binary64, through the Standard Library's
    executable specification of floating point numbers. *)
Definition double : Type := spec_float.
Definition d_prec : Z := 53.
Definition d_emax : Z := 1024.

(** The implicit conversion of a [long] to [double] (round to nearest). *)
Definition double_of_long (z : Z) : double := binary_normalize d_prec d_emax z 0 false.

Definition d_zero : double := S754_zero false.
Definition d_add : double -> double -> double := SFadd d_prec d_emax.
Definition d_sub : double -> double -> double := SFsub d_prec d_emax.
Definition d_mul : double -> double -> double := SFmul d_prec d_emax.
Definition d_div : double -> double -> double := SFdiv d_prec d_emax.
Definition d_neg : double -> double := SFopp.
Definition d_eq : double -> double -> bool := SFeqb.
Definition d_lt : double -> double -> bool := SFltb.
Definition d_le : double -> double -> bool := SFleb.

(** The functions of the C mathematics library the arithmetic calls.
    They are not part of the interpreter; the operations that use them
    take them from this record.  [m_powl x y] is [powl] applied to the two
    longs with the result converted back to [long]. *)
Record libm : Type := {
  m_fmod : double -> double -> double;
  m_pow : double -> double -> double;
  m_powl : Z -> Z -> outcome Z
}.

(** ** Values ([lval]) *)

(** Addresses of heap objects. *)
Definition loc : Type := nat.

(** The native functions a builtin value can point to: the functions the
    evaluator unit registers in [lenv_add_builtins]. *)
Inductive lbuiltin : Type :=
| Fn_add | Fn_sub | Fn_mul | Fn_div | Fn_min | Fn_max | Fn_pow | Fn_mod
| Fn_def | Fn_list | Fn_head | Fn_tail | Fn_eval | Fn_join | Fn_len
| Fn_cons | Fn_init.

#[global] Instance lbuiltin_eq_dec : EqDecision lbuiltin.
Proof. solve_decision. Defined.

(** The type tags.  The evaluator unit has the single function tag
    [LVAL_FUN]; it is [LVAL_BUILTIN_FUN] here. *)
Inductive ltype : Type :=
| LVAL_LONG | LVAL_DOUBLE | LVAL_BOOL | LVAL_STRING | LVAL_ERROR
| LVAL_SYMBOL | LVAL_BUILTIN_FUN | LVAL_USER_FUN | LVAL_SEXPRESSION
| LVAL_QEXPRESSION.

#[global] Instance ltype_eq_dec : EqDecision ltype.
Proof. solve_decision. Defined.

(** A value is its tag together with the member of the union that the tag
    selects.  A builtin carries the native function and, in the evaluator
    unit, the symbol it was registered under ([fhandle.symbol]); [lval.c]
    stores the function pointer alone and never looks at the symbol.  A
    user function refers to its captured environment by pointer.  The cell
    sequence of an expression is an ordered list. *)
Inductive lval : Type :=
| LLong (num_l : Z)
| LDouble (num_d : double)
| LBool (bval : bool)
| LString (str_val : string)
| LError (str_val : string)
| LSymbol (str_val : string)
| LBuiltin (symbol : string) (builtin : lbuiltin)
| LUserFun (env : loc) (formals body : lval)
| LSexpr (cell : list lval)
| LQexpr (cell : list lval).

Definition type_of (v : lval) : ltype :=
  match v with
  | LLong _ => LVAL_LONG
  | LDouble _ => LVAL_DOUBLE
  | LBool _ => LVAL_BOOL
  | LString _ => LVAL_STRING
  | LError _ => LVAL_ERROR
  | LSymbol _ => LVAL_SYMBOL
  | LBuiltin _ _ => LVAL_BUILTIN_FUN
  | LUserFun _ _ _ => LVAL_USER_FUN
  | LSexpr _ => LVAL_SEXPRESSION
  | LQexpr _ => LVAL_QEXPRESSION
  end.

(** [ltype_name] of [lval.c]. *)
Definition ltype_name (t : ltype) : string :=
  match t with
  | LVAL_BUILTIN_FUN | LVAL_USER_FUN => "Function"
  | LVAL_LONG => "Number"
  | LVAL_DOUBLE => "Decimal"
  | LVAL_BOOL => "Boolean"
  | LVAL_STRING => "String"
  | LVAL_ERROR => "Error"
  | LVAL_SYMBOL => "Symbol"
  | LVAL_SEXPRESSION => "S-Expression"
  | LVAL_QEXPRESSION => "Q-Expression"
  end.

(** [lval_error]: the message is rendered by [vsnprintf] into a buffer
    with a limit of 511 bytes, the terminating zero included, so at most
    510 characters of the formatted text are kept.  The argument is the
    text after formatting. *)
Definition lval_error (formatted : string) : lval :=
  LError (substring 0 510 formatted).

Definition lval_long (num : Z) : lval := LLong num.
Definition lval_double (num : double) : lval := LDouble num.
Definition lval_bool (b : bool) : lval := LBool b.
Definition lval_symbol (s : string) : lval := LSymbol s.
Definition lval_sexpression : lval := LSexpr [].
Definition lval_qexpression : lval := LQexpr [].
Definition lval_fun (name : string) (func : lbuiltin) : lval := LBuiltin name func.

(** [lval_add] appends [x] behind the last cell. *)
Definition lval_add (cells : list lval) (x : lval) : list lval := cells ++ [x].

(** ** The assertion macros of the evaluator unit

    [LASSERT(args, cond, fmt, ...)] leaves the enclosing function with
    [lval_error(fmt, ...)] as soon as [cond] fails (the bundle [args] is
    freed, nothing else happens).  The definitions below give the error
    value of each derived macro; the builtins test the condition and
    return it. *)

Definition err_env (arg_symbol : string) : lval :=
  lval_error ("environment not set for '" +:+ arg_symbol +:+ "'").

Definition err_num_args (arg_symbol : string) (expected received : nat) : lval :=
  lval_error ("function '" +:+ arg_symbol +:+ "' expects " +:+ pretty expected
              +:+ " argument, received " +:+ pretty received).

Definition err_type_arg (arg_symbol : string) (expected received : ltype) : lval :=
  lval_error ("function '" +:+ arg_symbol +:+ "' type mismatch - expected "
              +:+ ltype_name expected +:+ ", received " +:+ ltype_name received).

Definition err_numeric (arg_symbol : string) (received : ltype) : lval :=
  lval_error ("function '" +:+ arg_symbol
              +:+ "' type mismatch - expected numeric, received " +:+ ltype_name received).

(** ** Arithmetic on two scalars

    The operations whose text is the same in both units. *)

Section scalar_ops.
Variable M : libm.

Definition add_l (x y : Z) : outcome lval := Ret (lval_long (wrap_long (x + y))).
Definition add_d (x y : double) : outcome lval := Ret (lval_double (d_add x y)).
Definition sub_l (x y : Z) : outcome lval := Ret (lval_long (wrap_long (x - y))).
Definition sub_d (x y : double) : outcome lval := Ret (lval_double (d_sub x y)).
Definition mul_l (x y : Z) : outcome lval := Ret (lval_long (wrap_long (x * y))).
Definition mul_d (x y : double) : outcome lval := Ret (lval_double (d_mul x y)).
Definition div_d (x y : double) : outcome lval :=
  if d_eq y d_zero then Ret (lval_error "divide by zero") else Ret (lval_double (d_div x y)).
Definition max_l (x y : Z) : outcome lval := Ret (lval_long (if x >? y then x else y)).
Definition max_d (x y : double) : outcome lval := Ret (lval_double (if d_lt y x then x else y)).
Definition min_l (x y : Z) : outcome lval := Ret (lval_long (if x <? y then x else y)).
Definition min_d (x y : double) : outcome lval := Ret (lval_double (if d_lt x y then x else y)).

(** [x % y] on longs: no meaning when [y] is zero, nor for
    [LONG_MIN % -1], whose quotient does not fit. *)
Definition mod_l (x y : Z) : outcome lval :=
  if y =? 0 then Undef
  else if (x =? LONG_MIN) && (y =? -1) then Undef
  else Ret (lval_long (Z.rem x y)).
Definition mod_d (x y : double) : outcome lval := Ret (lval_double (m_fmod M x y)).
Definition pow_l (x y : Z) : outcome lval := z ← m_powl M x y; Ret (lval_long z).
Definition pow_d (x y : double) : outcome lval := Ret (lval_double (m_pow M x y)).

(** Reading the [num_d] member.  When the value holds another member of
    the union the program reads the bytes of that member (for an error,
    of a pointer; for a Boolean, one byte and what [malloc] left behind
    it) as a [double] and goes on.  Which [double] that is is not
    determined by the values modelled here: the model gives none. *)
Definition read_num_d (v : lval) : outcome double :=
  match v with
  | LDouble d => Ret d
  | _ => Undef
  end.

(** The body the [$] macro gives every jump-table label of [do_calc]:
    [LOP] on two longs; otherwise [DOP], a long operand being converted to
    [double] at the call. *)
Definition calc_case (LOP : Z -> Z -> outcome lval) (DOP : double -> double -> outcome lval)
    (xval yval : lval) : outcome lval :=
  match xval, yval with
  | LLong x, LLong y => LOP x y
  | LLong x, _ => d ← read_num_d yval; DOP (double_of_long x) d
  | _, LLong y => d ← read_num_d xval; DOP d (double_of_long y)
  | _, _ => dx ← read_num_d xval; dy ← read_num_d yval; DOP dx dy
  end.

End scalar_ops.

(** ** Popping the first cell

    [lval_pop] of [lval.c] unlinks the head cell and returns its value; on
    an empty list it reads through the null head pointer.  The evaluator
    unit pops index 0 of its array with the same result ([Eval.lval_pop]
    below). *)
Definition lval_pop_head (cells : list lval) : outcome (lval * list lval) :=
  match cells with
  | [] => Undef
  | x :: rest => Ret (x, rest)
  end.

(** ** [builtin_op]: the fold shared by both units

    The text of [builtin_op] is the same in the two units but for the
    order of its parameters; it is written once, over the unit's operation
    tags, its [do_calc] and the test [iop == IOPSENUM_SUB]. *)

Section builtin_op.
Context {iops_enum : Type}.
Variable do_calc : iops_enum -> lval -> lval -> outcome lval.
Variable is_SUB : iops_enum -> bool.

(** The first loop: the first argument that is neither [LVAL_LONG] nor
    [LVAL_DOUBLE] ends the function with an error. *)
Fixpoint check_numeric (symbol : string) (a : list lval) : option lval :=
  match a with
  | [] => None
  | v :: a' =>
      match v with
      | LLong _ | LDouble _ => check_numeric symbol a'
      | _ => Some (err_numeric symbol (type_of v))
      end
  end.

(** Negation in place of the popped operand. *)
Definition negate (x : lval) : outcome lval :=
  match x with
  | LLong n => Ret (LLong (wrap_long (- n)))
  | LDouble d => Ret (LDouble (d_neg d))
  | _ => Undef
  end.

(** The loop [while (count > 0) { y = pop; x = do_calc(iop, x, y); }],
    by recursion on the cells still in the bundle. *)
Fixpoint calc_loop (iop : iops_enum) (x : lval) (a : list lval) : outcome lval :=
  match a with
  | [] => Ret x
  | y :: a' => x' ← do_calc iop x y; calc_loop iop x' a'
  end.

(** [env] is [None] for a null environment pointer. *)
Definition builtin_op_body {E : Type} (env : option E) (symbol : string)
    (a : list lval) (iop : iops_enum) : outcome lval :=
  match env with
  | None => Ret (err_env symbol)
  | Some _ =>
      match check_numeric symbol a with
      | Some err => Ret err
      | None =>
          '(x, a') ← lval_pop_head a;
          x1 ← (if (length a' =? 0)%nat && is_SUB iop then negate x else Ret x);
          calc_loop iop x1 a'
      end
  end.

(** The specification's wording of the same fold: the running result is
    replaced by the operation applied to it and the next operand. *)
Definition fold_promoted (iop : iops_enum) (first : lval) (rest : list lval) : outcome lval :=
  fold_left (fun acc y => x ← acc; do_calc iop x y) rest (Ret first).

End builtin_op.

(** ** The arithmetic unit ([Sums]) *)

Module Sums.

Inductive iops_enum : Type :=
| IOPSENUM_SUB | IOPSENUM_MUL | IOPSENUM_DIV | IOPSENUM_ADD | IOPSENUM_POW
| IOPSENUM_MAX | IOPSENUM_MIN | IOPSENUM_MOD | IOPSENUM_GT | IOPSENUM_LT
| IOPSENUM_GTE | IOPSENUM_LTE.

(** Integer division converts the divisor to [double], so the quotient is
    computed and returned as a [double]. *)
Definition div_l (x y : Z) : outcome lval :=
  if y =? 0 then Ret (lval_error "divide by zero")
  else Ret (lval_double (d_div (double_of_long x) (double_of_long y))).

Definition gt (x y : double) : outcome lval := Ret (lval_bool (d_lt y x)).
Definition lt (x y : double) : outcome lval := Ret (lval_bool (d_lt x y)).
Definition gte (x y : double) : outcome lval := Ret (lval_bool (d_le y x)).
Definition lte (x y : double) : outcome lval := Ret (lval_bool (d_le x y)).

(** A comparison is its own long operation: the longs are converted at
    the call. *)
Definition on_longs (f : double -> double -> outcome lval) (x y : Z) : outcome lval :=
  f (double_of_long x) (double_of_long y).

Definition do_calc (M : libm) (iop : iops_enum) (xval yval : lval) : outcome lval :=
  match iop with
  | IOPSENUM_SUB => calc_case sub_l sub_d xval yval
  | IOPSENUM_MUL => calc_case mul_l mul_d xval yval
  | IOPSENUM_DIV => calc_case div_l div_d xval yval
  | IOPSENUM_ADD => calc_case add_l add_d xval yval
  | IOPSENUM_POW => calc_case (pow_l M) (pow_d M) xval yval
  | IOPSENUM_MAX => calc_case max_l max_d xval yval
  | IOPSENUM_MIN => calc_case min_l min_d xval yval
  | IOPSENUM_MOD => calc_case mod_l (mod_d M) xval yval
  | IOPSENUM_GT => calc_case (on_longs gt) gt xval yval
  | IOPSENUM_LT => calc_case (on_longs lt) lt xval yval
  | IOPSENUM_GTE => calc_case (on_longs gte) gte xval yval
  | IOPSENUM_LTE => calc_case (on_longs lte) lte xval yval
  end.

Definition is_SUB (iop : iops_enum) : bool :=
  match iop with
  | IOPSENUM_SUB => true
  | _ => false
  end.

Definition builtin_op {E : Type} (M : libm) (env : option E) (a : list lval)
    (symbol : string) (iop : iops_enum) : outcome lval :=
  builtin_op_body (do_calc M) is_SUB env symbol a iop.

(** The wrappers the [$] macro generates, one per operator. *)
Definition builtin_SUB {E} M (env : option E) val := builtin_op M env val "-" IOPSENUM_SUB.
Definition builtin_MUL {E} M (env : option E) val := builtin_op M env val "*" IOPSENUM_MUL.
Definition builtin_DIV {E} M (env : option E) val := builtin_op M env val "/" IOPSENUM_DIV.
Definition builtin_ADD {E} M (env : option E) val := builtin_op M env val "+" IOPSENUM_ADD.
Definition builtin_POW {E} M (env : option E) val := builtin_op M env val "^" IOPSENUM_POW.
Definition builtin_MAX {E} M (env : option E) val := builtin_op M env val "max" IOPSENUM_MAX.
Definition builtin_MIN {E} M (env : option E) val := builtin_op M env val "min" IOPSENUM_MIN.
Definition builtin_MOD {E} M (env : option E) val := builtin_op M env val "%" IOPSENUM_MOD.
Definition builtin_GT {E} M (env : option E) val := builtin_op M env val ">" IOPSENUM_GT.
Definition builtin_LT {E} M (env : option E) val := builtin_op M env val "<" IOPSENUM_LT.
Definition builtin_GTE {E} M (env : option E) val := builtin_op M env val ">=" IOPSENUM_GTE.
Definition builtin_LTE {E} M (env : option E) val := builtin_op M env val "<=" IOPSENUM_LTE.

End Sums.

(** ** [lval.c]: equality *)

(** [lval_is_equal].  In the expression case both cursors of the loop,
    [ptrx] and [ptry], start at the head of [x]'s list, as in the
    source. *)
Fixpoint lval_is_equal (x y : lval) {struct x} : bool :=
  let cells_equal :=
    fix cells_equal (ptrx ptry : list lval) {struct ptrx} : bool :=
      match ptrx, ptry with
      | dx :: nx, dy :: ny => if lval_is_equal dx dy then cells_equal nx ny else false
      | _, _ => true
      end in
  if negb (bool_decide (type_of x = type_of y)) then
    match x, y with
    | LLong a, LDouble b => d_eq (double_of_long a) b
    | LDouble a, LLong b => d_eq a (double_of_long b)
    | _, _ => false
    end
  else
    match x, y with
    | LLong a, LLong b => a =? b
    | LDouble a, LDouble b => d_eq a b
    | LBool a, LBool b => Bool.eqb a b
    | LString a, LString b => String.eqb a b
    | LError a, LError b => String.eqb a b
    | LSymbol a, LSymbol b => String.eqb a b
    | LBuiltin _ f, LBuiltin _ g => bool_decide (f = g)
    | LUserFun _ fx bx, LUserFun _ fy by_ => lval_is_equal fx fy && lval_is_equal bx by_
    | LQexpr cx, LQexpr cy => if negb (length cx =? length cy)%nat then false else cells_equal cx cx
    | LSexpr cx, LSexpr cy => if negb (length cx =? length cy)%nat then false else cells_equal cx cx
    | _, _ => false
    end.

(** The specification's wording of equality, for comparison: expressions
    are equal when they have the same number of elements and these are
    pairwise equal in order. *)
Fixpoint structurally_equal (x y : lval) {struct x} : bool :=
  let pairwise :=
    fix pairwise (cx cy : list lval) {struct cx} : bool :=
      match cx, cy with
      | [], [] => true
      | dx :: nx, dy :: ny => structurally_equal dx dy && pairwise nx ny
      | _, _ => false
      end in
  match x, y with
  | LLong a, LLong b => a =? b
  | LLong a, LDouble b => d_eq (double_of_long a) b
  | LDouble a, LLong b => d_eq a (double_of_long b)
  | LDouble a, LDouble b => d_eq a b
  | LBool a, LBool b => Bool.eqb a b
  | LString a, LString b => String.eqb a b
  | LError a, LError b => String.eqb a b
  | LSymbol a, LSymbol b => String.eqb a b
  | LBuiltin _ f, LBuiltin _ g => bool_decide (f = g)
  | LUserFun _ fx bx, LUserFun _ fy by_ => structurally_equal fx fy && structurally_equal bx by_
  | LQexpr cx, LQexpr cy => pairwise cx cy
  | LSexpr cx, LSexpr cy => pairwise cx cy
  | _, _ => false
  end.

(** ** [lenv.c]: environments, at the level of values

    A scope is its table, its read-only flag and the scope it is chained
    to.  The hash table of the collections library is a finite map from
    names to values; [hash_table_add] is taken to bind the name to the new
    value whether or not the name was bound before, which is what the
    specification says of [put] (insert or overwrite).  A null environment
    pointer is [None]. *)

Inductive lenv : Type :=
| Lenv (parent : option lenv) (table : gmap string lval) (read_only : bool).

Definition lenv_parent (e : lenv) : option lenv := let 'Lenv p _ _ := e in p.
Definition lenv_table (e : lenv) : gmap string lval := let 'Lenv _ t _ := e in t.
Definition lenv_read_only (e : lenv) : bool := let 'Lenv _ _ r := e in r.

(** [lenv_new]: empty table, no parent, not read-only. *)
Definition lenv_new : lenv := Lenv None ∅ false.

(** [lval_copy] at this level: a value with the same tag and the same
    members, each of them copied in turn.  The environment of a copied
    user function is a copy too, at an address of its own; there is no
    store of environments at this level, and the address is kept.  Which
    objects a copy shares with its original is settled in [Mem]. *)
Fixpoint lval_copy (v : lval) : lval :=
  match v with
  | LLong n => LLong n
  | LDouble d => LDouble d
  | LBool b => LBool b
  | LString s => LString s
  | LError s => LError s
  | LSymbol s => LSymbol s
  | LBuiltin s f => LBuiltin s f
  | LQexpr cells => LQexpr (map lval_copy cells)
  | LSexpr cells => LSexpr (map lval_copy cells)
  | LUserFun e f b => LUserFun e (lval_copy f) (lval_copy b)
  end.

(** [lenv_get]; [k] is the name held by the symbol passed as key. *)
Fixpoint lenv_get_in (e : lenv) (k : string) : lval :=
  let 'Lenv parent table _ := e in
  match table !! k with
  | Some rv => lval_copy rv
  | None =>
      match parent with
      | Some p => lenv_get_in p k
      | None => lval_error ("unbound symbol '" +:+ k +:+ "'")
      end
  end.

Definition lenv_get (e : option lenv) (k : string) : outcome lval :=
  match e with
  | None => Undef
  | Some e => Ret (lenv_get_in e k)
  end.

(** [lenv_put]: the flag returned is [true] when the binding was
    refused. *)
Definition lenv_put (e : lenv) (k : string) (v : lval) : bool * lenv :=
  let 'Lenv parent table read_only := e in
  if read_only && bool_decide (is_Some (table !! k)) then (true, e)
  else (false, Lenv parent (<[k := lval_copy v]> table) read_only).


(** ** The evaluator unit ([Eval]) *)

Module Eval.

Inductive iops_enum : Type :=
| IOPSENUM_SUB | IOPSENUM_MUL | IOPSENUM_DIV | IOPSENUM_ADD | IOPSENUM_POW
| IOPSENUM_MAX | IOPSENUM_MIN | IOPSENUM_MOD.

(** Integer division stays on longs here: [x / y] truncates toward zero;
    [LONG_MIN / -1] does not fit. *)
Definition div_l (x y : Z) : outcome lval :=
  if y =? 0 then Ret (lval_error "divide by zero")
  else if (x =? LONG_MIN) && (y =? -1) then Undef
  else Ret (lval_long (Z.quot x y)).

Definition do_calc (M : libm) (iop : iops_enum) (xval yval : lval) : outcome lval :=
  match iop with
  | IOPSENUM_SUB => calc_case sub_l sub_d xval yval
  | IOPSENUM_MUL => calc_case mul_l mul_d xval yval
  | IOPSENUM_DIV => calc_case div_l div_d xval yval
  | IOPSENUM_ADD => calc_case add_l add_d xval yval
  | IOPSENUM_POW => calc_case (pow_l M) (pow_d M) xval yval
  | IOPSENUM_MAX => calc_case max_l max_d xval yval
  | IOPSENUM_MIN => calc_case min_l min_d xval yval
  | IOPSENUM_MOD => calc_case mod_l (mod_d M) xval yval
  end.

Definition is_SUB (iop : iops_enum) : bool :=
  match iop with
  | IOPSENUM_SUB => true
  | _ => false
  end.

Definition builtin_op {E : Type} (M : libm) (env : option E) (symbol : string)
    (a : list lval) (iop : iops_enum) : outcome lval :=
  builtin_op_body (do_calc M) is_SUB env symbol a iop.

(** *** Cells in an array *)

(** [lval_pop(val, i)]: the cell at index [i] is returned and the cells
    behind it move down by one.  An index outside the array has no
    meaning. *)
Definition lval_pop (cells : list lval) (i : nat) : outcome (lval * list lval) :=
  match cells !! i with
  | Some x => Ret (x, delete i cells)
  | None => Undef
  end.

(** [lval_take(val, i)]: pop, then free the rest. *)
Definition lval_take (cells : list lval) (i : nat) : outcome lval :=
  '(x, _) ← lval_pop cells i; Ret x.

(** [LVAL_EXPR_ITEM(val, i)] for reading. *)
Definition expr_item (cells : list lval) (i : nat) : outcome lval :=
  match cells !! i with
  | Some x => Ret x
  | None => Undef
  end.

(** The cell list of a value that is an expression ([value.list]). *)
Definition expr_cells (v : lval) : outcome (list lval) :=
  match v with
  | LQexpr cells | LSexpr cells => Ret cells
  | _ => Undef
  end.

Definition err_empty (symbol : string) : lval :=
  lval_error ("empty q-expression passed to '" +:+ symbol +:+ "'").

(** *** List builtins

    Each takes the environment pointer, the symbol the function was called
    through and the cells of the argument bundle [val]. *)

(** The loop [while (rv->count > 1) lval_del(lval_pop(rv, 1))] of
    [builtin_head]; [n] bounds the number of rounds. *)
Fixpoint head_loop (n : nat) (rv : list lval) : outcome (list lval) :=
  if (1 <? length rv)%nat then
    match n with
    | O => Timeout
    | S n' => '(_, rv') ← lval_pop rv 1; head_loop n' rv'
    end
  else Ret rv.

Definition builtin_head {E : Type} (env : option E) (symbol : string)
    (val : list lval) : outcome lval :=
  match env with
  | None => Ret (err_env symbol)
  | Some _ =>
      if negb (length val =? 1)%nat then Ret (err_num_args symbol 1 (length val))
      else
        v0 ← expr_item val 0;
        if negb (bool_decide (type_of v0 = LVAL_QEXPRESSION))
        then Ret (err_type_arg symbol LVAL_QEXPRESSION (type_of v0))
        else
          c0 ← expr_cells v0;
          if (length c0 =? 0)%nat then Ret (err_empty symbol)
          else
            rv ← lval_take val 0;
            cells ← expr_cells rv;
            cells' ← head_loop (length cells) cells;
            Ret (LQexpr cells')
  end.

Definition builtin_tail {E : Type} (env : option E) (symbol : string)
    (val : list lval) : outcome lval :=
  match env with
  | None => Ret (err_env symbol)
  | Some _ =>
      if negb (length val =? 1)%nat then Ret (err_num_args symbol 1 (length val))
      else
        v0 ← expr_item val 0;
        if negb (bool_decide (type_of v0 = LVAL_QEXPRESSION))
        then Ret (err_type_arg symbol LVAL_QEXPRESSION (type_of v0))
        else
          c0 ← expr_cells v0;
          if (length c0 =? 0)%nat then Ret (err_empty symbol)
          else
            rv ← lval_take val 0;
            cells ← expr_cells rv;
            '(_, cells') ← lval_pop cells 0;
            Ret (LQexpr cells')
  end.

Definition builtin_init {E : Type} (env : option E) (symbol : string)
    (val : list lval) : outcome lval :=
  match env with
  | None => Ret (err_env symbol)
  | Some _ =>
      if negb (length val =? 1)%nat then Ret (err_num_args symbol 1 (length val))
      else
        v0 ← expr_item val 0;
        if negb (bool_decide (type_of v0 = LVAL_QEXPRESSION))
        then Ret (err_type_arg symbol LVAL_QEXPRESSION (type_of v0))
        else
          c0 ← expr_cells v0;
          if (length c0 =? 0)%nat then Ret (err_empty symbol)
          else
            rv ← lval_take val 0;
            cells ← expr_cells rv;
            '(_, cells') ← lval_pop cells (length cells - 1);
            Ret (LQexpr cells')
  end.

(** [builtin_list] retags the bundle itself. *)
Definition builtin_list {E : Type} (env : option E) (symbol : string)
    (val : list lval) : outcome lval :=
  match env with
  | None => Ret (err_env symbol)
  | Some _ => Ret (LQexpr val)
  end.

Definition builtin_len {E : Type} (env : option E) (symbol : string)
    (val : list lval) : outcome lval :=
  match env with
  | None => Ret (err_env symbol)
  | Some _ =>
      if negb (length val =? 1)%nat then Ret (err_num_args symbol 1 (length val))
      else
        v0 ← expr_item val 0;
        if negb (bool_decide (type_of v0 = LVAL_QEXPRESSION))
        then Ret (err_type_arg symbol LVAL_QEXPRESSION (type_of v0))
        else
          x ← lval_take val 0;
          cells ← expr_cells x;
          Ret (lval_long (Z.of_nat (length cells)))
  end.

(** [lval_join]: the cells of [y] are popped from its front and appended
    to [x] one at a time. *)
Fixpoint lval_join (x y : list lval) : list lval :=
  match y with
  | [] => x
  | d :: y' => lval_join (lval_add x d) y'
  end.

(** The type check of [builtin_join], over every index of the bundle. *)
Fixpoint check_all_qexpr (symbol : string) (val : list lval) : option lval :=
  match val with
  | [] => None
  | v :: val' =>
      if bool_decide (type_of v = LVAL_QEXPRESSION) then check_all_qexpr symbol val'
      else Some (err_type_arg symbol LVAL_QEXPRESSION (type_of v))
  end.

(** The loop [while (count) x = lval_join(x, lval_pop(val, 0))]. *)
Fixpoint join_loop (x : list lval) (val : list lval) : outcome (list lval) :=
  match val with
  | [] => Ret x
  | y :: val' => cy ← expr_cells y; join_loop (lval_join x cy) val'
  end.

Definition builtin_join {E : Type} (env : option E) (symbol : string)
    (val : list lval) : outcome lval :=
  match env with
  | None => Ret (err_env symbol)
  | Some _ =>
      match check_all_qexpr symbol val with
      | Some err => Ret err
      | None =>
          '(x, val') ← lval_pop val 0;
          cx ← expr_cells x;
          cells ← join_loop cx val';
          Ret (LQexpr cells)
      end
  end.

(** The cell array after [lval_pop(val, i)], as the block of memory it
    is.  [memmove] moves the cells behind index [i] down by one and writes
    nothing to the slot of the old last cell, and [realloc] to one cell
    less leaves the block where it is: the slot past the new count still
    holds the pointer of the old last cell.  C gives a read of that slot
    no meaning; the program as it runs finds the old pointer there. *)
Definition block_after_pop (cells : list lval) (i : nat) : list lval :=
  (delete i cells ++ match last cells with
                     | Some stale => [stale]
                     | None => []
                     end)%list.

(** The loop of [builtin_cons]: while the expression at index 1 of the
    bundle has cells, move its first cell to the end of [rv].  The index
    is read again in every round; [n] bounds the number of rounds.  [val]
    is the block of the bundle, the slot past its count included. *)
Fixpoint cons_loop (n : nat) (rv : list lval) (val : list lval) : outcome (list lval) :=
  v1 ← expr_item val 1;
  c1 ← expr_cells v1;
  if (length c1 =? 0)%nat then Ret rv
  else
    match n with
    | O => Timeout
    | S n' =>
        '(d, c1') ← lval_pop c1 0;
        cons_loop n' (lval_add rv d) (<[1%nat := LQexpr c1']> val)
    end.

Definition cons_first_ok (v : lval) : bool :=
  match v with
  | LLong _ | LDouble _ | LBuiltin _ _ => true
  | _ => false
  end.

(** [builtin_cons].  The first argument is popped from the bundle before
    the loop, so the loop's index 1 is the slot past the one cell the
    bundle still counts: it holds the pointer to the Q-expression that
    [memmove] has also copied to index 0.  The final [lval_del(val)]
    reaches the Q-expression, emptied by the loop, once, through
    index 0. *)
Definition builtin_cons {E : Type} (env : option E) (symbol : string)
    (val : list lval) : outcome lval :=
  match env with
  | None => Ret (err_env symbol)
  | Some _ =>
      if negb (length val =? 2)%nat then Ret (err_num_args symbol 2 (length val))
      else
        v0 ← expr_item val 0;
        if negb (cons_first_ok v0)
        then Ret (lval_error ("first '" +:+ symbol +:+ "' parameter should be a value or a function"))
        else
          v1 ← expr_item val 1;
          if negb (bool_decide (type_of v1 = LVAL_QEXPRESSION))
          then Ret (lval_error ("second '" +:+ symbol +:+ "' parameter should be a q-expression"))
          else
            c1 ← expr_cells v1;
            '(x, _) ← lval_pop val 0;
            cells ← cons_loop (length c1) (lval_add [] x) (block_after_pop val 0);
            Ret (LQexpr cells)
  end.

(** *** [def] *)

(** The name held by a symbol ([value.symbol]). *)
Definition symbol_name (v : lval) : outcome string :=
  match v with
  | LSymbol k => Ret k
  | _ => Undef
  end.

(** The first loop of [builtin_def]: every cell of the name list is a
    symbol. *)
Fixpoint check_all_symbols (symbol : string) (syms : list lval) : option lval :=
  match syms with
  | [] => None
  | s :: syms' =>
      if bool_decide (type_of s = LVAL_SYMBOL) then check_all_symbols symbol syms'
      else Some (err_type_arg symbol LVAL_SYMBOL (type_of s))
  end.

(** The second loop: name [i] is bound to argument [i + 1] by [lenv_put];
    the first refusal ends the function.  [syms] holds the names from
    index [i] on.  The result is the error, if any, and the environment
    as the loop left it. *)
Fixpoint def_loop (e : lenv) (syms : list lval) (val : list lval) (i : nat)
    : outcome (option lval * lenv) :=
  match syms with
  | [] => Ret (None, e)
  | s :: syms' =>
      k ← symbol_name s;
      v ← expr_item val (i + 1);
      let '(refused, e') := lenv_put e k v in
      if refused then Ret (Some (lval_error ("function '" +:+ k +:+ "' is a built-in")), e')
      else def_loop e' syms' val (S i)
  end.

Definition builtin_def (env : option lenv) (symbol : string) (val : list lval)
    : outcome (lval * option lenv) :=
  match env with
  | None => Ret (err_env symbol, env)
  | Some e =>
      v0 ← expr_item val 0;
      if negb (bool_decide (type_of v0 = LVAL_QEXPRESSION))
      then Ret (err_type_arg symbol LVAL_QEXPRESSION (type_of v0), env)
      else
        syms ← expr_cells v0;
        match check_all_symbols symbol syms with
        | Some err => Ret (err, env)
        | None =>
            if negb (Z.of_nat (length syms) =? Z.of_nat (length val) - 1)
            then Ret (lval_error ("function '" +:+ symbol +:+ "' argument mismatch - "
                                  +:+ pretty (Z.of_nat (length syms)) +:+ " symbols, "
                                  +:+ pretty (Z.of_nat (length val) - 1) +:+ " values"), env)
            else
              '(err, e') ← def_loop e syms val 0;
              match err with
              | Some err => Ret (err, Some e')
              | None => Ret (lval_sexpression, Some e')
              end
        end
  end.

(** *** The evaluator

    [lval_eval] and [lval_eval_sexpr] call each other, and [builtin_eval]
    calls back into [lval_eval]; the functions below take the evaluator
    for the recursive calls as [eval], and [lval_eval] ties the knot with
    a fuel counter.  The environment is passed along: [def] changes
    it. *)

Section evaluator.
Variable M : libm.
Variable eval : option lenv -> lval -> outcome (lval * option lenv).

(** A builtin that leaves the environment alone. *)
Definition pure_call (env : option lenv) (r : outcome lval) : outcome (lval * option lenv) :=
  v ← r; Ret (v, env).

Definition builtin_eval (env : option lenv) (symbol : string) (val : list lval)
    : outcome (lval * option lenv) :=
  match env with
  | None => Ret (err_env symbol, env)
  | Some _ =>
      if negb (length val =? 1)%nat then Ret (err_num_args symbol 1 (length val), env)
      else
        v0 ← expr_item val 0;
        if negb (bool_decide (type_of v0 = LVAL_QEXPRESSION))
        then Ret (err_type_arg symbol LVAL_QEXPRESSION (type_of v0), env)
        else
          x ← lval_take val 0;
          cells ← expr_cells x;
          eval env (LSexpr cells)
  end.

(** The call through the function pointer of a builtin value. *)
Definition call_builtin (f : lbuiltin) (env : option lenv) (symbol : string)
    (val : list lval) : outcome (lval * option lenv) :=
  match f with
  | Fn_add => pure_call env (builtin_op M env symbol val IOPSENUM_ADD)
  | Fn_sub => pure_call env (builtin_op M env symbol val IOPSENUM_SUB)
  | Fn_div => pure_call env (builtin_op M env symbol val IOPSENUM_DIV)
  | Fn_mul => pure_call env (builtin_op M env symbol val IOPSENUM_MUL)
  | Fn_min => pure_call env (builtin_op M env symbol val IOPSENUM_MIN)
  | Fn_max => pure_call env (builtin_op M env symbol val IOPSENUM_MAX)
  | Fn_pow => pure_call env (builtin_op M env symbol val IOPSENUM_POW)
  | Fn_mod => pure_call env (builtin_op M env symbol val IOPSENUM_MOD)
  | Fn_def => builtin_def env symbol val
  | Fn_list => pure_call env (builtin_list env symbol val)
  | Fn_head => pure_call env (builtin_head env symbol val)
  | Fn_tail => pure_call env (builtin_tail env symbol val)
  | Fn_eval => builtin_eval env symbol val
  | Fn_join => pure_call env (builtin_join env symbol val)
  | Fn_len => pure_call env (builtin_len env symbol val)
  | Fn_cons => pure_call env (builtin_cons env symbol val)
  | Fn_init => pure_call env (builtin_init env symbol val)
  end.

(** The first loop of [lval_eval_sexpr]: every cell, from index 0 to the
    last, is replaced by its value. *)
Fixpoint eval_children (env : option lenv) (cells : list lval)
    : outcome (list lval * option lenv) :=
  match cells with
  | [] => Ret ([], env)
  | c :: cells' =>
      '(c', env1) ← eval env c;
      '(rest, env2) ← eval_children env1 cells';
      Ret (c' :: rest, env2)
  end.

(** The second loop: the index of the first cell that is an error. *)
Fixpoint first_error (cells : list lval) : option nat :=
  match cells with
  | [] => None
  | c :: cells' =>
      if bool_decide (type_of c = LVAL_ERROR) then Some O
      else S <$> first_error cells'
  end.

(** When the first cell is not a function, the source frees it and then
    reads its type for the message of the error it returns: a read of
    freed memory.  The program as it runs returns an error whose message
    names whatever type the freed cell then shows; that is not determined
    by the values modelled here, and the model gives no result for this
    branch. *)
Definition lval_eval_sexpr (env : option lenv) (val : list lval)
    : outcome (lval * option lenv) :=
  '(val1, env1) ← eval_children env val;
  match first_error val1 with
  | Some i => x ← lval_take val1 i; Ret (x, env1)
  | None =>
      if (length val1 =? 0)%nat then Ret (LSexpr val1, env1)
      else if (length val1 =? 1)%nat then x ← lval_take val1 0; Ret (x, env1)
      else
        '(first, val2) ← lval_pop val1 0;
        match first with
        | LBuiltin symbol f => call_builtin f env1 symbol val2
        | _ => Undef
        end
  end.

End evaluator.

Fixpoint lval_eval (M : libm) (fuel : nat) (env : option lenv) (val : lval)
    : outcome (lval * option lenv) :=
  match fuel with
  | O => Timeout
  | S fuel' =>
      match val with
      | LSymbol k => x ← lenv_get env k; Ret (x, env)
      | LSexpr cells => lval_eval_sexpr M (lval_eval M fuel') env cells
      | _ => Ret (val, env)
      end
  end.

(** *** Registering the builtins *)

(** Modelled from the spec: [lenv_put_builtin] is called by
    [lenv_add_builtin] but defined in no source file at hand.  The
    specification has the builtins registered into the root environment,
    each under its name; the binding is made as [lenv_put] makes it. *)
Definition lenv_put_builtin (e : lenv) (k : string) (v : lval) : lenv :=
  snd (lenv_put e k v).

Definition lenv_add_builtin (env : lenv) (name : string) (func : lbuiltin) : lenv :=
  lenv_put_builtin env name (lval_fun name func).

Definition lenv_add_builtins (e : lenv) : lenv :=
  fold_left (fun e '(name, func) => lenv_add_builtin e name func)
    [("+", Fn_add); ("-", Fn_sub); ("*", Fn_mul); ("/", Fn_div);
     ("min", Fn_min); ("max", Fn_max); ("^", Fn_pow); ("%", Fn_mod);
     ("def", Fn_def); ("list", Fn_list); ("head", Fn_head); ("tail", Fn_tail);
     ("eval", Fn_eval); ("join", Fn_join); ("len", Fn_len); ("cons", Fn_cons);
     ("init", Fn_init)] e.

(** The two scopes [lilith_init] of [lenv.c] sets up: the root, read-only
    and holding the builtins, and the scope chained to it in which
    programs are evaluated (shown before the standard library is
    loaded). *)
Definition root_env : lenv :=
  lenv_add_builtins (Lenv None ∅ true).

Definition top_env : lenv := Lenv (Some root_env) ∅ false.

End Eval.

(** ** Predicates and instances used in the statements *)

Definition is_numeric (v : lval) : bool :=
  match v with
  | LLong _ | LDouble _ => true
  | _ => false
  end.

(** A divisor the guard of the division operations takes for zero: the
    long 0, or a double that compares equal to 0.0 (either sign). *)
Definition zero_divisor (y : lval) : bool :=
  match y with
  | LLong b => b =? 0
  | LDouble d => d_eq d d_zero
  | _ => false
  end.

Definition is_error (v : lval) : bool := bool_decide (type_of v = LVAL_ERROR).

(** A mathematics library for the closed examples below, none of which
    reaches [fmod], [pow] or [powl]. *)
Definition libm_unused : libm :=
  {| m_fmod := fun _ _ => S754_nan; m_pow := fun _ _ => S754_nan; m_powl := fun _ _ => Undef |}.

(** Whether an outcome is the return of an error value. *)
Definition returns_error (o : outcome lval) : bool :=
  match o with
  | Ret v => is_error v
  | _ => false
  end.

(** ** [lval.c] and [lenv.c] at the level of memory

    Copying is about which objects are shared, which the value level
    cannot say.  Here every [lval] and every [lenv] is an object in a
    heap, referred to by its address.  A node stands for the [lval] struct
    together with the buffers only it points to (the text of a string, the
    [pair] cells that chain the members of an expression); an environment
    cell stands for the [lenv] struct together with its hash table.
    [malloc] returns an address not in use; a node enters the heap when
    its members are complete. *)

Module Mem.

Inductive node : Type :=
| NLong (num_l : Z)
| NDouble (num_d : double)
| NBool (bval : bool)
| NString (str_val : string)
| NError (str_val : string)
| NSymbol (str_val : string)
| NBuiltin (builtin : lbuiltin)
| NUserFun (env : loc) (formals body : loc)
| NSexpr (cells : list loc)
| NQexpr (cells : list loc).

Record lenv_cell : Type := {
  parent : option loc;
  table : gmap string loc;
  read_only : bool
}.

Inductive cell : Type :=
| CVal (v : node)
| CEnv (e : lenv_cell).

Abbreviation heap := (gmap loc cell).

Definition malloc (h : heap) (c : cell) : loc * heap :=
  let l := fresh (dom h) in (l, <[l := c]> h).

Arguments malloc : simpl never.

(** The loop of [lval_copy] over the cells of an expression: each member
    is copied and the copy appended, in order. *)
Fixpoint copy_cells (copy : loc -> heap -> outcome (loc * heap)) (cells : list loc) (h : heap)
    : outcome (list loc * heap) :=
  match cells with
  | [] => Ret ([], h)
  | c :: cells' =>
      '(c', h1) ← copy c h;
      '(rest, h2) ← copy_cells copy cells' h1;
      Ret (c' :: rest, h2)
  end.

(** The loop of [lenv_copy] over the entries of the table: each value is
    copied and added to the new table under the same key. *)
Definition copy_table (copy : loc -> heap -> outcome (loc * heap)) (t : gmap string loc) (h : heap)
    : outcome (gmap string loc * heap) :=
  map_fold (fun k v acc =>
              '(t', h1) ← acc;
              '(v', h2) ← copy v h1;
              Ret (<[k := v']> t', h2))
           (Ret (∅, h)) t.

(** [lenv_copy]: the same parent link, the same flag, a table of
    copies. *)
Definition lenv_copy (copy : loc -> heap -> outcome (loc * heap)) (e : loc) (h : heap)
    : outcome (loc * heap) :=
  match h !! e with
  | Some (CEnv ec) =>
      '(t', h1) ← copy_table copy (table ec) h;
      Ret (malloc h1 (CEnv {| parent := parent ec; table := t'; read_only := read_only ec |}))
  | _ => Undef
  end.

(** [lval_copy]; the recursion through members is bounded by [fuel]. *)
Fixpoint lval_copy (fuel : nat) (v : loc) (h : heap) : outcome (loc * heap) :=
  match fuel with
  | O => Timeout
  | S fuel' =>
      match h !! v with
      | Some (CVal (NLong n)) => Ret (malloc h (CVal (NLong n)))
      | Some (CVal (NDouble d)) => Ret (malloc h (CVal (NDouble d)))
      | Some (CVal (NBool b)) => Ret (malloc h (CVal (NBool b)))
      | Some (CVal (NString s)) => Ret (malloc h (CVal (NString s)))
      | Some (CVal (NError s)) => Ret (malloc h (CVal (NError s)))
      | Some (CVal (NSymbol s)) => Ret (malloc h (CVal (NSymbol s)))
      | Some (CVal (NBuiltin f)) => Ret (malloc h (CVal (NBuiltin f)))
      | Some (CVal (NQexpr cells)) =>
          '(cells', h1) ← copy_cells (lval_copy fuel') cells h;
          Ret (malloc h1 (CVal (NQexpr cells')))
      | Some (CVal (NSexpr cells)) =>
          '(cells', h1) ← copy_cells (lval_copy fuel') cells h;
          Ret (malloc h1 (CVal (NSexpr cells')))
      | Some (CVal (NUserFun e f b)) =>
          '(e', h1) ← lenv_copy (lval_copy fuel') e h;
          '(f', h2) ← lval_copy fuel' f h1;
          '(b', h3) ← lval_copy fuel' b h2;
          Ret (malloc h3 (CVal (NUserFun e' f' b')))
      | _ => Undef
      end
  end.

(** [lval_error], allocating. *)
Definition lval_error (formatted : string) (h : heap) : loc * heap :=
  malloc h (CVal (NError (substring 0 510 formatted))).

(** [lenv_get]: [hops] bounds the parent links followed, [fuel] is the
    fuel of the copy. *)
Fixpoint lenv_get (hops fuel : nat) (e : loc) (k : string) (h : heap) : outcome (loc * heap) :=
  match hops with
  | O => Timeout
  | S hops' =>
      match h !! e with
      | Some (CEnv ec) =>
          match table ec !! k with
          | Some rv => lval_copy fuel rv h
          | None =>
              match parent ec with
              | Some p => lenv_get hops' fuel p k h
              | None => Ret (lval_error ("unbound symbol '" +:+ k +:+ "'") h)
              end
          end
      | _ => Undef
      end
  end.

(** [lenv_put]: refused on a read-only environment that binds the key;
    otherwise a copy of the value is bound. *)
Definition lenv_put (fuel : nat) (e : loc) (k : string) (v : loc) (h : heap) : outcome (bool * heap) :=
  match h !! e with
  | Some (CEnv ec) =>
      if read_only ec && bool_decide (is_Some (table ec !! k)) then Ret (true, h)
      else
        '(v', h1) ← lval_copy fuel v h;
        Ret (false, <[e := CEnv {| parent := parent ec; table := <[k := v']> (table ec);
                                    read_only := read_only ec |}]> h1)
  | _ => Undef
  end.

(** *** Well-formed values, copies, reachability *)

(** The value at [v] is a tree of depth at most [n], all of it in [h]. *)
Fixpoint wf_val (n : nat) (h : heap) (v : loc) : Prop :=
  match n with
  | O => False
  | S n' =>
      match h !! v with
      | Some (CVal (NUserFun e f b)) =>
          match h !! e with
          | Some (CEnv ec) => map_Forall (fun _ x => wf_val n' h x) (table ec)
          | _ => False
          end
          /\ wf_val n' h f /\ wf_val n' h b
      | Some (CVal (NSexpr cells)) | Some (CVal (NQexpr cells)) => Forall (wf_val n' h) cells
      | Some (CVal _) => True
      | _ => False
      end
  end.

(** The environment at [e] and the scopes it is chained to, at most
    [hops] of them, bind well-formed values. *)
Fixpoint wf_chain (hops fuel : nat) (h : heap) (e : loc) : Prop :=
  match hops with
  | O => False
  | S hops' =>
      match h !! e with
      | Some (CEnv ec) =>
          map_Forall (fun _ x => wf_val fuel h x) (table ec)
          /\ match parent ec with
             | Some p => wf_chain hops' fuel h p
             | None => True
             end
      | _ => False
      end
  end.

(** The value at [r] in [h] is a copy of the value at [p] in [h0]: the
    same tag, the same scalar members, members that are copies in turn;
    and none of its nodes is an object of [h0].  The environment of a
    copied user function keeps the parent link and the flag and binds
    the same names to copies. *)
Fixpoint copy_of (n : nat) (h0 : heap) (p : loc) (h : heap) (r : loc) : Prop :=
  match n with
  | O => False
  | S n' =>
      (r ∉ dom h0) /\
      match h0 !! p, h !! r with
      | Some (CVal a), Some (CVal b) =>
          match a, b with
          | NLong x, NLong y => x = y
          | NDouble x, NDouble y => x = y
          | NBool x, NBool y => x = y
          | NString x, NString y => x = y
          | NError x, NError y => x = y
          | NSymbol x, NSymbol y => x = y
          | NBuiltin x, NBuiltin y => x = y
          | NSexpr cs, NSexpr cs' => Forall2 (fun c c' => copy_of n' h0 c h c') cs cs'
          | NQexpr cs, NQexpr cs' => Forall2 (fun c c' => copy_of n' h0 c h c') cs cs'
          | NUserFun e f b, NUserFun e' f' b' =>
              ((e' ∉ dom h0) /\
               match h0 !! e, h !! e' with
               | Some (CEnv ec), Some (CEnv ec') =>
                   parent ec' = parent ec /\ read_only ec' = read_only ec
                   /\ forall k, option_Forall2 (fun c c' => copy_of n' h0 c h c')
                                  (table ec !! k) (table ec' !! k)
               | _, _ => False
               end)
              /\ copy_of n' h0 f h f' /\ copy_of n' h0 b h b'
          | _, _ => False
          end
      | _, _ => False
      end
  end.

(** The objects a cell owns: the members of an expression, the
    environment, formals and body of a user function, the values of a
    table.  The parent link of an environment refers to a scope it does
    not own. *)
Definition members (c : cell) : list loc :=
  match c with
  | CVal (NUserFun e f b) => [e; f; b]
  | CVal (NSexpr cells) | CVal (NQexpr cells) => cells
  | CVal _ => []
  | CEnv ec => (map_to_list (table ec)).*2
  end.

(** [l] belongs to the object at [a]: it is [a] or belongs to one of its
    members. *)
Inductive reachable (h : heap) : loc -> loc -> Prop :=
| reach_here a : reachable h a a
| reach_member a c b l : h !! a = Some c -> b ∈ members c -> reachable h b l -> reachable h a l.

(** A heap for the closed examples: the root environment at address 0
    binds [x] to the Q-expression [{7}] stored at addresses 1 and 2; the
    environment at address 3 is chained to it and binds nothing. *)
Definition example_heap : heap :=
  {[ 0%nat := CEnv {| parent := None; table := {[ "x" := 1%nat ]}; read_only := false |};
     1%nat := CVal (NQexpr [2%nat]);
     2%nat := CVal (NLong 7);
     3%nat := CEnv {| parent := Some 0%nat; table := ∅; read_only := false |} ]}.

(** *** Releasing values *)

(** [free]: releasing what is not an object of the heap, a second time
    for instance, has no defined behaviour. *)
Definition free (l : loc) (h : heap) : outcome heap :=
  match h !! l with
  | Some _ => Ret (delete l h)
  | None => Undef
  end.

(** The loop of [lval_del] over the cells of an expression. *)
Fixpoint del_cells (del : loc -> heap -> outcome heap) (cells : list loc) (h : heap)
    : outcome heap :=
  match cells with
  | [] => Ret h
  | c :: cells' => h1 ← del c h; del_cells del cells' h1
  end.

Section lval_del.

(** [lenv_del] releases the table through the collections library, which
    is not part of the sources: it is left open here. *)
Variable lenv_del : loc -> heap -> outcome heap.

(** [lval_del]: the members first, then the value itself. *)
Fixpoint lval_del (fuel : nat) (v : loc) (h : heap) : outcome heap :=
  match fuel with
  | O => Timeout
  | S fuel' =>
      match h !! v with
      | Some (CVal (NSexpr cells)) | Some (CVal (NQexpr cells)) =>
          h1 ← del_cells (lval_del fuel') cells h;
          free v h1
      | Some (CVal (NUserFun e f b)) =>
          h1 ← lenv_del e h;
          h2 ← lval_del fuel' f h1;
          h3 ← lval_del fuel' b h2;
          free v h3
      | Some (CVal _) => free v h
      | _ => Undef
      end
  end.

End lval_del.

(** The value at [v] is a tree of depth at most [n] with no user function
    in it. *)
Fixpoint plain_val (n : nat) (h : heap) (v : loc) : Prop :=
  match n with
  | O => False
  | S n' =>
      match h !! v with
      | Some (CVal (NUserFun _ _ _)) => False
      | Some (CVal (NSexpr cells)) | Some (CVal (NQexpr cells)) => Forall (plain_val n' h) cells
      | Some (CVal _) => True
      | _ => False
      end
  end.

(** What a copy made from [h] to [h'] owes to [lval_del]: the objects [F]
    it has added are released, and nothing else is touched, in whatever
    heap holds them as [h'] does. *)
Definition released_by (del : heap -> outcome heap) (h h' : heap) : Prop :=
  exists F : gset loc,
    F ## dom h /\ dom h' = dom h ∪ F /\ h ⊆ h'
    /\ forall g : heap, (forall l, l ∈ F -> g !! l = h' !! l) ->
       exists g' : heap, del g = Ret g'
         /\ forall l, g' !! l = if decide (l ∈ F) then None else g !! l.

End Mem.

(** ** Statements about scopes and evaluation: auxiliary notions *)



(** The values [lval_eval] returns as they are: everything but symbols
    and S-expressions. *)
Definition self_evaluating (v : lval) : bool :=
  match v with
  | LSymbol _ | LSexpr _ => false
  | _ => true
  end.

(** ** [lval.c]: access to the cells of a linked list *)

(** The loop of [lval_expr_item]: walk the list with a counter that
    starts at 0; [None] is the null pointer returned when the list ends
    first. *)
Fixpoint expr_item_loop (ptr : list lval) (expr_item i : nat) : option lval :=
  match ptr with
  | [] => None
  | data :: next => if (expr_item =? i)%nat then Some data else expr_item_loop next (S expr_item) i
  end.

Definition lval_expr_item (val : list lval) (i : nat) : option lval :=
  expr_item_loop val 0 i.

(** The first loop of [lval_take] of [lval.c]: [n] cells are popped and
    deleted. *)
Fixpoint pop_and_delete (n : nat) (val : list lval) : outcome (list lval) :=
  match n with
  | O => Ret val
  | S n' => '(_, rest) ← lval_pop_head val; pop_and_delete n' rest
  end.

(** [lval_take] of [lval.c]: the cells before index [i] are popped and
    deleted, the next cell is popped and returned, the rest is
    deleted. *)
Definition lval_take (val : list lval) (i : nat) : outcome lval :=
  val1 ← pop_and_delete i val;
  '(rv, _) ← lval_pop_head val1;
  Ret rv.

(** ** Notions for the statements about arithmetic and equality *)

Definition in_long_range (z : Z) : Prop := LONG_MIN <= z <= LONG_MAX.

Definition is_long (v : lval) : bool :=
  match v with
  | LLong _ => true
  | _ => false
  end.

(** The operators whose result on numbers is always a number: addition,
    subtraction, multiplication, maximum and minimum. *)
Definition sums_number_op (iop : Sums.iops_enum) : bool :=
  match iop with
  | Sums.IOPSENUM_ADD | Sums.IOPSENUM_SUB | Sums.IOPSENUM_MUL
  | Sums.IOPSENUM_MAX | Sums.IOPSENUM_MIN => true
  | _ => false
  end.

Definition eval_number_op (iop : Eval.iops_enum) : bool :=
  match iop with
  | Eval.IOPSENUM_ADD | Eval.IOPSENUM_SUB | Eval.IOPSENUM_MUL
  | Eval.IOPSENUM_MAX | Eval.IOPSENUM_MIN => true
  | _ => false
  end.

(** No Decimal inside the value is a not-a-number. *)
Fixpoint no_nan (v : lval) : bool :=
  match v with
  | LDouble d => d_eq d d
  | LUserFun _ f b => no_nan f && no_nan b
  | LSexpr cells | LQexpr cells => forallb no_nan cells
  | _ => true
  end.

(** ** [lenv.c]: the table as a value *)

(** [lenv_to_lval]: for every entry of the environment's own table, in
    the order the table enumerates them, a Q-expression of the key as a
    string and a copy of the value is appended to the result. *)
Definition lenv_to_lval (env : lenv) : lval :=
  LQexpr (foldl (fun rv kv =>
                   lval_add rv (LQexpr (lval_add (lval_add [] (LString kv.1)) (lval_copy kv.2))))
                [] (map_to_list (lenv_table env))).

(** * Lemmas and theorems *)

(** ** Arithmetic *)

Section builtin_op_facts.
Context {iops_enum : Type}.
Variable do_calc : iops_enum -> lval -> lval -> outcome lval.
Variable is_SUB : iops_enum -> bool.

Lemma check_numeric_all symbol a :
  Forall (fun v => is_numeric v = true) a -> check_numeric symbol a = None.
Proof.
  induction 1 as [|v a Hv _ IH]; simpl; [reflexivity|].
  destruct v; simpl in Hv; try discriminate; exact IH.
Qed.

Lemma check_numeric_first symbol pre v post :
  Forall (fun v => is_numeric v = true) pre -> is_numeric v = false ->
  check_numeric symbol (pre ++ v :: post) = Some (err_numeric symbol (type_of v)).
Proof.
  intros Hpre Hv. induction Hpre as [|w pre Hw _ IH]; simpl.
  - destruct v; simpl in Hv; try discriminate; reflexivity.
  - destruct w; simpl in Hw; try discriminate; exact IH.
Qed.

Lemma fold_promoted_acc iop (acc : outcome lval) rest :
  fold_left (fun acc y => x ← acc; do_calc iop x y) rest acc
  = (x ← acc; calc_loop do_calc iop x rest).
Proof.
  revert acc. induction rest as [|y rest IH]; intros acc; simpl.
  - destruct acc; reflexivity.
  - rewrite IH. destruct acc; reflexivity.
Qed.

Lemma calc_loop_is_fold iop x rest :
  calc_loop do_calc iop x rest = fold_promoted do_calc iop x rest.
Proof. unfold fold_promoted. rewrite fold_promoted_acc. reflexivity. Qed.

(** A bundle with an argument that is not a number: the error names the
    type of the first such argument, whatever [do_calc] is. *)
Lemma builtin_op_body_mismatch {E} (e : E) symbol pre v post iop :
  Forall (fun v => is_numeric v = true) pre -> is_numeric v = false ->
  builtin_op_body do_calc is_SUB (Some e) symbol (pre ++ v :: post) iop
  = Ret (err_numeric symbol (type_of v)).
Proof.
  intros Hpre Hv. unfold builtin_op_body.
  rewrite (check_numeric_first symbol pre v post Hpre Hv). reflexivity.
Qed.

Lemma builtin_op_body_negate {E} (e : E) symbol x iop :
  is_numeric x = true -> is_SUB iop = true ->
  builtin_op_body do_calc is_SUB (Some e) symbol [x] iop = negate x.
Proof.
  intros Hx Hs. unfold builtin_op_body.
  rewrite check_numeric_all by (constructor; [exact Hx | constructor]).
  simpl. rewrite Hs. destruct (negate x); reflexivity.
Qed.

Lemma builtin_op_body_fold {E} (e : E) symbol x rest iop :
  Forall (fun v => is_numeric v = true) (x :: rest) ->
  rest <> [] \/ is_SUB iop = false ->
  builtin_op_body do_calc is_SUB (Some e) symbol (x :: rest) iop
  = fold_promoted do_calc iop x rest.
Proof.
  intros Hall Hcase. unfold builtin_op_body.
  rewrite check_numeric_all by exact Hall.
  rewrite <- calc_loop_is_fold. cbn [lval_pop_head mbind outcome_bind].
  destruct Hcase as [Hne | Hs].
  - destruct rest as [|y rest]; [congruence | reflexivity].
  - rewrite Hs, andb_false_r. reflexivity.
Qed.

End builtin_op_facts.

Lemma is_SUB_Sums iop : Sums.is_SUB iop = true <-> iop = Sums.IOPSENUM_SUB.
Proof. destruct iop; simpl; split; congruence. Qed.

Lemma is_SUB_Eval iop : Eval.is_SUB iop = true <-> iop = Eval.IOPSENUM_SUB.
Proof. destruct iop; simpl; split; congruence. Qed.

(** C6.  In both units [builtin_op] (i) answers a bundle holding an
    argument that is not a number with the type-mismatch error for the
    first such argument, whatever the operator and without any arithmetic
    (the answer does not depend on the operands before or after it);
    (ii) for subtraction on a single number returns that number negated;
    (iii) in every other case on numbers returns the left-to-right fold of
    the promoted binary operation over the operands after the first,
    started from the first. *)
Theorem builtin_op_validates_negates_folds (M : libm) {E : Type} (e : E) (symbol : string) :
  (forall pre v post,
      Forall (fun v => is_numeric v = true) pre -> is_numeric v = false ->
      (forall iop, Sums.builtin_op M (Some e) (pre ++ v :: post) symbol iop
                   = Ret (err_numeric symbol (type_of v)))
      /\ (forall iop, Eval.builtin_op M (Some e) symbol (pre ++ v :: post) iop
                      = Ret (err_numeric symbol (type_of v))))
  /\ (forall n,
         Sums.builtin_op M (Some e) [LLong n] symbol Sums.IOPSENUM_SUB = Ret (LLong (wrap_long (- n)))
         /\ Eval.builtin_op M (Some e) symbol [LLong n] Eval.IOPSENUM_SUB = Ret (LLong (wrap_long (- n))))
  /\ (forall d,
         Sums.builtin_op M (Some e) [LDouble d] symbol Sums.IOPSENUM_SUB = Ret (LDouble (d_neg d))
         /\ Eval.builtin_op M (Some e) symbol [LDouble d] Eval.IOPSENUM_SUB = Ret (LDouble (d_neg d)))
  /\ (forall x rest,
         Forall (fun v => is_numeric v = true) (x :: rest) ->
         (forall iop, rest <> [] \/ iop <> Sums.IOPSENUM_SUB ->
                      Sums.builtin_op M (Some e) (x :: rest) symbol iop
                      = fold_promoted (Sums.do_calc M) iop x rest)
         /\ (forall iop, rest <> [] \/ iop <> Eval.IOPSENUM_SUB ->
                         Eval.builtin_op M (Some e) symbol (x :: rest) iop
                         = fold_promoted (Eval.do_calc M) iop x rest)).
Proof.
  repeat split.
  - intros iop. apply builtin_op_body_mismatch; assumption.
  - intros iop. apply builtin_op_body_mismatch; assumption.
  - intros iop Hcase. apply builtin_op_body_fold; [assumption|].
    destruct Hcase as [Hne | Hs]; [left; exact Hne | right].
    destruct (Sums.is_SUB iop) eqn:Hi; [|reflexivity].
    apply is_SUB_Sums in Hi. contradiction.
  - intros iop Hcase. apply builtin_op_body_fold; [assumption|].
    destruct Hcase as [Hne | Hs]; [left; exact Hne | right].
    destruct (Eval.is_SUB iop) eqn:Hi; [|reflexivity].
    apply is_SUB_Eval in Hi. contradiction.
Qed.

Lemma builtin_op_validates_negates_folds_witness :
  Sums.builtin_op libm_unused (Some tt) [LLong 1; LString "a"; LLong 2] "+" Sums.IOPSENUM_ADD
  = Ret (LError "function '+' type mismatch - expected numeric, received String")
  /\ Sums.builtin_op libm_unused (Some tt) [LLong 1; LLong 2; LDouble (double_of_long 3)] "+" Sums.IOPSENUM_ADD
     = Ret (LDouble (double_of_long 6)).
Proof.
  pose proof (builtin_op_validates_negates_folds libm_unused tt "+") as (Hmis & _ & _ & Hfold).
  split.
  - destruct (Hmis [LLong 1] (LString "a") [LLong 2]) as [HS _].
    + repeat constructor.
    + reflexivity.
    + exact (HS Sums.IOPSENUM_ADD).
  - destruct (Hfold (LLong 1) [LLong 2; LDouble (double_of_long 3)]) as [HS _].
    + repeat constructor.
    + rewrite (HS Sums.IOPSENUM_ADD); [vm_compute; reflexivity | left; discriminate].
Defined.

(** The unary-minus and promotion examples of the specification. *)
Example unary_minus_examples :
  Sums.builtin_SUB libm_unused (Some tt) [LLong 5] = Ret (LLong (-5))
  /\ Sums.builtin_SUB libm_unused (Some tt) [LDouble (double_of_long 5)] = Ret (LDouble (double_of_long (-5)))
  /\ Sums.builtin_ADD libm_unused (Some tt) [LLong 1; LLong 2] = Ret (LLong 3)
  /\ Sums.builtin_ADD libm_unused (Some tt) [LLong 1; LDouble (double_of_long 2)] = Ret (LDouble (double_of_long 3)).
Proof. repeat split; vm_compute; reflexivity. Qed.

(** ** Conversion of a long to double never yields zero for a non-zero long *)

Lemma shr_1_div2 mrs : 0 <= shr_m mrs -> shr_m (shr_1 mrs) = Z.div2 (shr_m mrs).
Proof.
  destruct mrs as [m r s]. simpl. intros Hm.
  destruct m as [|p|p]; [reflexivity | | lia].
  destruct p; reflexivity.
Qed.

Lemma pow2_xO p : 2 ^ Z.pos p~0 = 2 ^ Z.pos p * 2 ^ Z.pos p.
Proof. rewrite <- Z.pow_add_r by lia. f_equal. lia. Qed.

Lemma pow2_xI p : 2 ^ Z.pos p~1 = 2 * (2 ^ Z.pos p * 2 ^ Z.pos p).
Proof.
  rewrite <- Z.pow_add_r by lia. rewrite <- Z.pow_succ_r by lia. f_equal. lia.
Qed.

Lemma iter_shr_1_div p : forall mrs,
  0 <= shr_m mrs -> shr_m (SpecFloat.iter_pos shr_1 p mrs) = shr_m mrs / 2 ^ Z.pos p.
Proof.
  induction p as [p IH | p IH |]; intros mrs Hm; simpl SpecFloat.iter_pos.
  - assert (H1 : 0 <= shr_m (shr_1 mrs)).
    { rewrite shr_1_div2 by exact Hm. rewrite Z.div2_div. apply Z.div_pos; lia. }
    assert (H2 : 0 <= shr_m (SpecFloat.iter_pos shr_1 p (shr_1 mrs))).
    { rewrite IH by exact H1. apply Z.div_pos; [exact H1 | lia]. }
    rewrite IH by exact H2. rewrite IH by exact H1.
    rewrite shr_1_div2 by exact Hm. rewrite Z.div2_div.
    rewrite !Z.div_div by lia. rewrite pow2_xI. reflexivity.
  - assert (H2 : 0 <= shr_m (SpecFloat.iter_pos shr_1 p mrs)).
    { rewrite IH by exact Hm. apply Z.div_pos; [exact Hm | lia]. }
    rewrite IH by exact H2. rewrite IH by exact Hm.
    rewrite Z.div_div by lia. rewrite pow2_xO. reflexivity.
  - rewrite shr_1_div2 by exact Hm. rewrite Z.div2_div. reflexivity.
Qed.

Lemma digits2_pos_lower p : 2 ^ (Z.pos (digits2_pos p) - 1) <= Z.pos p.
Proof.
  induction p as [p IH | p IH |]; simpl digits2_pos.
  - rewrite Pos2Z.inj_succ. replace (Z.succ (Z.pos (digits2_pos p)) - 1)
      with (Z.succ (Z.pos (digits2_pos p) - 1)) by lia.
    rewrite Z.pow_succ_r by lia. lia.
  - rewrite Pos2Z.inj_succ. replace (Z.succ (Z.pos (digits2_pos p)) - 1)
      with (Z.succ (Z.pos (digits2_pos p) - 1)) by lia.
    rewrite Z.pow_succ_r by lia. lia.
  - simpl. lia.
Qed.

(** Away from the subnormal range, the shift that brings a positive
    mantissa to 53 digits leaves it positive. *)
Lemma shr_fexp_positive m e l :
  0 < m -> -1022 <= e ->
  0 < shr_m (fst (shr_fexp d_prec d_emax m e l)) /\ -1022 <= snd (shr_fexp d_prec d_emax m e l).
Proof.
  intros Hm He. destruct m as [|p|p]; try lia.
  unfold shr_fexp, shr, fexp, emin, Zdigits2, d_prec, d_emax.
  pose proof (digits2_pos_lower p) as Hd.
  set (D := Z.pos (digits2_pos p)) in *.
  assert (HD : 1 <= D) by (unfold D; lia).
  replace (Z.max (D + e - 53) (3 - 1024 - 53) - e) with (D - 53) by lia.
  destruct (D - 53) as [|k|k] eqn:Hk; simpl fst; simpl snd.
  - split; [destruct l as [|[]]; simpl; lia | lia].
  - split; [|lia].
    rewrite iter_shr_1_div by (destruct l as [|[]]; simpl; lia).
    replace (shr_m (shr_record_of_loc (Z.pos p) l)) with (Z.pos p)
      by (destruct l as [|[]]; reflexivity).
    apply Z.div_str_pos. split; [lia|].
    eapply Z.le_trans; [|exact Hd].
    apply Z.pow_le_mono_r; lia.
  - split; [destruct l as [|[]]; simpl; lia | lia].
Qed.

Lemma round_nearest_even_positive m l : 0 < m -> 0 < round_nearest_even m l.
Proof. intros Hm. destruct l as [|[]]; simpl; try lia. destruct (Z.even m); lia. Qed.

Lemma binary_round_aux_not_zero sx m e l :
  0 < m -> -1022 <= e ->
  d_eq (binary_round_aux d_prec d_emax sx m e l) d_zero = false.
Proof.
  intros Hm He. unfold binary_round_aux.
  destruct (shr_fexp_positive m e l Hm He) as [H1 H2].
  destruct (shr_fexp d_prec d_emax m e l) as [mrs' e'] eqn:E1. simpl in H1, H2.
  pose proof (round_nearest_even_positive (shr_m mrs') (loc_of_shr_record mrs') H1) as H3.
  destruct (shr_fexp_positive _ e' loc_Exact H3 H2) as [H4 _].
  destruct (shr_fexp d_prec d_emax _ e' loc_Exact) as [mrs'' e''] eqn:E2. simpl in H4.
  destruct (shr_m mrs'') as [|q|q]; try lia.
  destruct (e'' <=? d_emax - d_prec), sx; reflexivity.
Qed.

Lemma double_of_long_not_zero z : z <> 0 -> d_eq (double_of_long z) d_zero = false.
Proof.
  intros Hz. unfold double_of_long, binary_normalize.
  assert (Hround : forall sx p, d_eq (binary_round d_prec d_emax sx p 0) d_zero = false).
  { intros sx p. unfold binary_round, shl_align.
    destruct (fexp d_prec d_emax (Z.pos (digits2_pos p) + 0) - 0) as [|k|k] eqn:Hk;
      apply binary_round_aux_not_zero; try lia.
    unfold fexp, emin, d_prec, d_emax in *. lia. }
  destruct z as [|p|p]; [congruence | apply Hround | apply Hround].
Qed.

(** ** Division and modulo *)

(** C1, counterexample.  In the evaluator unit, where [/] is registered
    and evaluated, [(/ 4 2)] is the Integer 2, not a Decimal. *)
Lemma eval_unit_divides_integers_to_integer :
  Eval.lval_eval libm_unused 2 (Some Eval.top_env) (LSexpr [LSymbol "/"; LLong 4; LLong 2])
  = Ret (LLong 2, Some Eval.top_env).
Proof. vm_compute. reflexivity. Qed.

(** C1, as amended.  In the arithmetic unit [/] returns a Decimal for
    every pair of numbers whose divisor is not zero, also when both are
    Integers, and [(/ 4 2)] is the Decimal 2.0 there.  The evaluator
    unit's own [/] keeps two Integers on integers: for a divisor other
    than zero it returns the quotient truncated toward zero, with one
    exception, [LONG_MIN / -1], whose quotient does not fit a long and
    for which the division has no result.  With a zero divisor the result
    is the error "divide by zero" in both units, not a Decimal. *)
Theorem division_result_kind_by_unit (M : libm) {E : Type} (e : E) :
  (forall x y, is_numeric x = true -> is_numeric y = true -> zero_divisor y = false ->
               exists d, Sums.builtin_DIV M (Some e) [x; y] = Ret (LDouble d))
  /\ Sums.builtin_DIV M (Some e) [LLong 4; LLong 2] = Ret (LDouble (double_of_long 2))
  /\ (forall a b, b <> 0 -> ~ (a = LONG_MIN /\ b = -1) ->
                  Eval.builtin_op M (Some e) "/" [LLong a; LLong b] Eval.IOPSENUM_DIV
                  = Ret (LLong (Z.quot a b)))
  /\ Eval.builtin_op M (Some e) "/" [LLong 4; LLong 2] Eval.IOPSENUM_DIV = Ret (LLong 2)
  /\ Eval.builtin_op M (Some e) "/" [LLong LONG_MIN; LLong (-1)] Eval.IOPSENUM_DIV = Undef
  /\ (forall x y, is_numeric x = true -> zero_divisor y = true ->
                  Sums.builtin_DIV M (Some e) [x; y] = Ret (LError "divide by zero")
                  /\ Eval.builtin_op M (Some e) "/" [x; y] Eval.IOPSENUM_DIV
                     = Ret (LError "divide by zero")).
Proof.
  split; [|split; [|split; [|split; [|split]]]].
  - intros x y Hx Hy Hz.
    destruct x as [a|dx| | | | | | | |]; try discriminate Hx;
      destruct y as [b|dy| | | | | | | |]; try discriminate Hy; simpl in Hz;
      unfold Sums.builtin_DIV, Sums.builtin_op, builtin_op_body; simpl.
    + unfold Sums.div_l. rewrite Hz. eexists; reflexivity.
    + unfold div_d. rewrite Hz. eexists; reflexivity.
    + unfold div_d. rewrite double_of_long_not_zero by (apply Z.eqb_neq; exact Hz).
      eexists; reflexivity.
    + unfold div_d. rewrite Hz. eexists; reflexivity.
  - vm_compute. reflexivity.
  - intros a b Hb Hab.
    unfold Eval.builtin_op, builtin_op_body; simpl. unfold Eval.div_l.
    destruct (Z.eqb_spec b 0) as [->|_]; [congruence|].
    destruct (Z.eqb_spec a LONG_MIN) as [Ha|_]; [|reflexivity].
    destruct (Z.eqb_spec b (-1)) as [Hb1|_]; [|reflexivity].
    exfalso. apply Hab. split; assumption.
  - reflexivity.
  - reflexivity.
  - intros x y Hx Hz.
    destruct x as [a|dx| | | | | | | |]; try discriminate Hx;
      destruct y as [b|dy| | | | | | | |]; try discriminate Hz; simpl in Hz;
      try (apply Z.eqb_eq in Hz; subst b);
      unfold Sums.builtin_DIV, Sums.builtin_op, Eval.builtin_op, builtin_op_body; simpl;
      unfold div_d; try rewrite Hz; split; reflexivity.
Qed.

Lemma division_result_kind_by_unit_witness :
  (exists d, Sums.builtin_DIV libm_unused (Some tt) [LLong 7; LDouble (double_of_long 2)] = Ret (LDouble d))
  /\ Eval.builtin_op libm_unused (Some tt) "/" [LLong (-7); LLong 2] Eval.IOPSENUM_DIV = Ret (LLong (-3))
  /\ Eval.builtin_op libm_unused (Some tt) "/" [LLong 7; LDouble (S754_zero true)] Eval.IOPSENUM_DIV
     = Ret (LError "divide by zero").
Proof.
  pose proof (division_result_kind_by_unit libm_unused tt) as (Hdec & _ & Hint & _ & _ & Hzero).
  split; [|split].
  - apply Hdec; reflexivity.
  - apply (Hint (-7) 2); [lia | intros [_ H]; discriminate H].
  - apply (Hzero (LLong 7) (LDouble (S754_zero true))); reflexivity.
Defined.

(** C2.  With a divisor that is zero (the Integer 0, or a Decimal equal
    to 0.0) and any number as dividend, [/] returns the error "divide by
    zero" in both units: a value, not an infinity, not-a-number or an
    undefined outcome. *)
Theorem division_by_zero_is_error (M : libm) {E : Type} (e : E) (x y : lval) :
  is_numeric x = true -> zero_divisor y = true ->
  Sums.builtin_DIV M (Some e) [x; y] = Ret (LError "divide by zero")
  /\ Eval.builtin_op M (Some e) "/" [x; y] Eval.IOPSENUM_DIV = Ret (LError "divide by zero").
Proof.
  intros Hx Hz.
  destruct x as [a|dx| | | | | | | |]; try discriminate Hx;
    destruct y as [b|dy| | | | | | | |]; try discriminate Hz; simpl in Hz;
    try (apply Z.eqb_eq in Hz; subst b);
    unfold Sums.builtin_DIV, Sums.builtin_op, Eval.builtin_op, builtin_op_body; simpl;
    unfold div_d; try rewrite Hz; split; reflexivity.
Qed.

Lemma division_by_zero_is_error_witness :
  Sums.builtin_DIV libm_unused (Some tt) [LLong 5; LLong 0] = Ret (LError "divide by zero")
  /\ Eval.builtin_op libm_unused (Some tt) "/" [LLong 5; LLong 0] Eval.IOPSENUM_DIV
     = Ret (LError "divide by zero").
Proof. apply (division_by_zero_is_error libm_unused tt (LLong 5) (LLong 0)); reflexivity. Defined.

(** The example with Decimals, [(/ 5.0 0.0)], and with a negative zero. *)
Example division_by_decimal_zero :
  Sums.builtin_DIV libm_unused (Some tt) [LDouble (double_of_long 5); LDouble (S754_zero false)]
  = Ret (LError "divide by zero")
  /\ Sums.builtin_DIV libm_unused (Some tt) [LLong 5; LDouble (S754_zero true)]
     = Ret (LError "divide by zero").
Proof. split; vm_compute; reflexivity. Qed.

(** C10.  On two Integers [%] goes to [mod_l] with no test of the second
    operand, and [mod_l] with a zero second operand is the bare remainder
    instruction, which has no defined result: in neither unit does the
    builtin return an error value there, whereas [/] on the same operands
    returns the error "divide by zero". *)
Theorem modulo_by_zero_is_unguarded (M : libm) {E : Type} (e : E) (x : Z) :
  (forall y, Sums.do_calc M Sums.IOPSENUM_MOD (LLong x) (LLong y) = mod_l x y
             /\ Eval.do_calc M Eval.IOPSENUM_MOD (LLong x) (LLong y) = mod_l x y)
  /\ mod_l x 0 = Undef
  /\ Sums.builtin_MOD M (Some e) [LLong x; LLong 0] = Undef
  /\ Eval.builtin_op M (Some e) "%" [LLong x; LLong 0] Eval.IOPSENUM_MOD = Undef
  /\ returns_error (Sums.builtin_MOD M (Some e) [LLong x; LLong 0]) = false
  /\ returns_error (Eval.builtin_op M (Some e) "%" [LLong x; LLong 0] Eval.IOPSENUM_MOD) = false
  /\ returns_error (Sums.builtin_DIV M (Some e) [LLong x; LLong 0]) = true.
Proof. repeat split. Qed.

(** ** Equality *)

(** C5, the failing input.  The Q-expressions [{1}] and [{2}] have one
    element each and the elements differ, yet [lval_is_equal] answers
    [true]: the cursor meant for [y] walks the cells of [x].  Equality as
    the specification words it answers [false]. *)
Theorem lval_is_equal_ignores_cells_of_second :
  lval_is_equal (LQexpr [LLong 1]) (LQexpr [LLong 2]) = true
  /\ structurally_equal (LQexpr [LLong 1]) (LQexpr [LLong 2]) = false.
Proof. split; reflexivity. Qed.

(** The general form: two Q-expressions with the same number of cells
    compare as the first compares with itself. *)
Lemma lval_is_equal_same_count (cx cy : list lval) :
  length cx = length cy ->
  lval_is_equal (LQexpr cx) (LQexpr cy) = lval_is_equal (LQexpr cx) (LQexpr cx).
Proof.
  intros Hlen. cbn [lval_is_equal type_of]. rewrite Hlen, Nat.eqb_refl. reflexivity.
Qed.

(** What holds of [lval_is_equal] outside expressions: an Integer and a
    Decimal are compared as doubles, builtins by their native function,
    user functions by formals and body whatever environment they
    captured. *)
Lemma lval_is_equal_scalars_and_functions :
  (forall a d, lval_is_equal (LLong a) (LDouble d) = d_eq (double_of_long a) d)
  /\ (forall a d, lval_is_equal (LDouble d) (LLong a) = d_eq d (double_of_long a))
  /\ (forall s1 s2 f g, lval_is_equal (LBuiltin s1 f) (LBuiltin s2 g) = bool_decide (f = g))
  /\ (forall e1 e2 f1 b1 f2 b2,
         lval_is_equal (LUserFun e1 f1 b1) (LUserFun e2 f2 b2)
         = lval_is_equal f1 f2 && lval_is_equal b1 b2).
Proof. repeat split. Qed.

Module EvalFacts.
Import Eval.

(** Popping index 0 of the array is popping the head of the list. *)
Lemma lval_pop_front (cells : list lval) : lval_pop cells 0 = lval_pop_head cells.
Proof. destruct cells; reflexivity. Qed.

(** ** List builtins *)

Lemma head_loop_keeps_first x : forall q n,
  (length q <= n)%nat -> head_loop n (x :: q) = Ret [x].
Proof.
  induction q as [|y q IH]; intros n Hn.
  - destruct n; reflexivity.
  - destruct n as [|n]; [simpl in Hn; lia|].
    simpl in Hn. change (head_loop (S n) (x :: y :: q)) with (head_loop n (x :: q)).
    apply IH. lia.
Qed.

(** C7.  [head] on one non-empty Q-expression returns the Q-expression
    holding its first element alone; on the empty Q-expression it returns
    the error built from "empty q-expression passed to '%s'" and the
    symbol the function was called through, which under its registered
    name reads "empty q-expression passed to 'head'", also when reached
    through the evaluator. *)
Theorem head_first_element_or_empty_error {E : Type} (e : E) (symbol : string) :
  (forall x q, builtin_head (Some e) symbol [LQexpr (x :: q)] = Ret (LQexpr [x]))
  /\ builtin_head (Some e) symbol [LQexpr []]
     = Ret (lval_error ("empty q-expression passed to '" +:+ symbol +:+ "'"))
  /\ builtin_head (Some e) "head" [LQexpr []]
     = Ret (LError "empty q-expression passed to 'head'")
  /\ lval_eval libm_unused 2 (Some top_env) (LSexpr [LSymbol "head"; LQexpr []])
     = Ret (LError "empty q-expression passed to 'head'", Some top_env).
Proof.
  split; [|split; [|split]].
  - intros x q. unfold builtin_head. cbn -[head_loop].
    rewrite (head_loop_keeps_first x q (S (length q))) by lia. reflexivity.
  - reflexivity.
  - reflexivity.
  - vm_compute. reflexivity.
Qed.

Lemma lval_join_app : forall y x, lval_join x y = (x ++ y)%list.
Proof.
  induction y as [|d y IH]; intros x; simpl.
  - rewrite app_nil_r. reflexivity.
  - rewrite IH. unfold lval_add. rewrite <- app_assoc. reflexivity.
Qed.

Lemma check_all_qexpr_map symbol qs : check_all_qexpr symbol (map LQexpr qs) = None.
Proof. induction qs as [|q qs IH]; simpl; [reflexivity | exact IH]. Qed.

Lemma join_loop_concat : forall qs x, join_loop x (map LQexpr qs) = Ret (x ++ concat qs)%list.
Proof.
  induction qs as [|q qs IH]; intros x; simpl.
  - rewrite app_nil_r. reflexivity.
  - rewrite IH, lval_join_app, <- app_assoc. reflexivity.
Qed.

(** C8, counterexample.  For [q = {{1} 2}], [tail q] is [{2}], and [cons]
    applied to the first element [{1}] and [{2}] is an error, not [q]. *)
Lemma cons_rejects_list_head :
  builtin_tail (Some tt) "tail" [LQexpr [LQexpr [LLong 1]; LLong 2]] = Ret (LQexpr [LLong 2])
  /\ builtin_cons (Some tt) "cons" [LQexpr [LLong 1]; LQexpr [LLong 2]]
     = Ret (LError "first 'cons' parameter should be a value or a function").
Proof. split; vm_compute; reflexivity. Qed.

(** The loop of [cons] with the Q-expression in the slot it reads: every
    cell of the Q-expression is moved to the end of the result, in
    order. *)
Lemma cons_loop_moves_cells (v0 : lval) : forall (c rv : list lval) (n : nat),
  (length c <= n)%nat -> cons_loop n rv [v0; LQexpr c] = Ret (rv ++ c)%list.
Proof.
  induction c as [|d c IH]; intros rv n Hn.
  - destruct n; simpl; rewrite app_nil_r; reflexivity.
  - destruct n as [|n]; [simpl in Hn; lia|].
    cbn -[cons_loop] in Hn.
    change (cons_loop (S n) rv [v0; LQexpr (d :: c)])
      with (cons_loop n (lval_add rv d) [v0; LQexpr c]).
    rewrite IH by lia. unfold lval_add. rewrite <- app_assoc. reflexivity.
Qed.

(** C8, as amended.  [tail] of a non-empty Q-expression is the
    Q-expression of the elements after the first.  [cons] prepends a
    first argument that is an Integer, a Decimal or a function to the
    Q-expression, so that [cons] applied to the first element of such a
    Q-expression and its [tail] gives the Q-expression back, as in
    [cons 1 (tail {1 2 3})]; any other first argument is answered with an
    error.  [join] applied to Q-expressions returns the Q-expression of
    their elements in argument order; in particular [join {1 2} {3}] is
    [{1 2 3}]. *)
Theorem list_algebra_as_implemented {E : Type} (e : E) (symbol : string) :
  (forall x q, builtin_tail (Some e) symbol [LQexpr (x :: q)] = Ret (LQexpr q))
  /\ (forall x q, cons_first_ok x = true ->
                  builtin_cons (Some e) symbol [x; LQexpr q] = Ret (LQexpr (x :: q)))
  /\ (forall x q, cons_first_ok x = true ->
                  exists t, builtin_tail (Some e) symbol [LQexpr (x :: q)] = Ret t
                            /\ builtin_cons (Some e) symbol [x; t] = Ret (LQexpr (x :: q)))
  /\ (exists t, builtin_tail (Some e) symbol [LQexpr [LLong 1; LLong 2; LLong 3]] = Ret t
                /\ builtin_cons (Some e) symbol [LLong 1; t]
                   = Ret (LQexpr [LLong 1; LLong 2; LLong 3]))
  /\ (forall x q, cons_first_ok x = false ->
                  builtin_cons (Some e) symbol [x; LQexpr q]
                  = Ret (lval_error ("first '" +:+ symbol +:+ "' parameter should be a value or a function")))
  /\ (forall q qs, builtin_join (Some e) symbol (map LQexpr (q :: qs)) = Ret (LQexpr (concat (q :: qs))))
  /\ builtin_join (Some e) symbol [LQexpr [LLong 1; LLong 2]; LQexpr [LLong 3]]
     = Ret (LQexpr [LLong 1; LLong 2; LLong 3]).
Proof.
  assert (Hcons : forall x q, cons_first_ok x = true ->
            builtin_cons (Some e) symbol [x; LQexpr q] = Ret (LQexpr (x :: q))).
  { intros x q Hx. unfold builtin_cons.
    cbn [length Nat.eqb negb expr_item lookup list_lookup mbind outcome_bind].
    rewrite Hx. cbn [negb type_of].
    rewrite bool_decide_eq_true_2 by reflexivity.
    cbn [negb expr_cells mbind outcome_bind lval_pop lookup list_lookup].
    change (block_after_pop [x; LQexpr q] 0) with [LQexpr q; LQexpr q].
    rewrite cons_loop_moves_cells by lia. reflexivity. }
  split; [|split; [|split; [|split; [|split; [|split]]]]].
  - intros x q. reflexivity.
  - exact Hcons.
  - intros x q Hx. exists (LQexpr q). split; [reflexivity | apply Hcons; exact Hx].
  - exists (LQexpr [LLong 2; LLong 3]). split; [reflexivity | apply Hcons; reflexivity].
  - intros x q Hx. unfold builtin_cons. simpl. rewrite Hx. reflexivity.
  - intros q qs. unfold builtin_join.
    rewrite check_all_qexpr_map. simpl. rewrite join_loop_concat. reflexivity.
  - reflexivity.
Qed.

Lemma list_algebra_as_implemented_witness :
  builtin_cons (Some tt) "cons" [LDouble (double_of_long 1); LQexpr [LLong 2; LLong 3]]
  = Ret (LQexpr [LDouble (double_of_long 1); LLong 2; LLong 3])
  /\ builtin_cons (Some tt) "cons" [LSymbol "a"; LQexpr [LLong 2]]
     = Ret (LError "first 'cons' parameter should be a value or a function").
Proof.
  destruct (list_algebra_as_implemented tt "cons") as (_ & Hcons & _ & _ & Herr & _).
  split.
  - apply (Hcons (LDouble (double_of_long 1)) [LLong 2; LLong 3]). reflexivity.
  - apply (Herr (LSymbol "a") [LLong 2]). reflexivity.
Defined.

(** The specification's example through the evaluator:
    [(cons 1 (tail {1 2 3}))] is [{1 2 3}]. *)
Example cons_of_tail_evaluated :
  lval_eval libm_unused 3 (Some top_env)
    (LSexpr [LSymbol "cons"; LLong 1;
             LSexpr [LSymbol "tail"; LQexpr [LLong 1; LLong 2; LLong 3]]])
  = Ret (LQexpr [LLong 1; LLong 2; LLong 3], Some top_env).
Proof. vm_compute. reflexivity. Qed.

(** ** Values are their own copies *)

Lemma lval_copy_id : forall v, lval_copy v = v.
Proof.
  fix IH 1. intros v.
  destruct v as [n|d|b|s|s|s|s f|e f b|cells|cells]; simpl; try reflexivity.
  - rewrite (IH f), (IH b). reflexivity.
  - f_equal. induction cells as [|c cells IHc]; simpl; [reflexivity|].
    rewrite (IH c), IHc. reflexivity.
  - f_equal. induction cells as [|c cells IHc]; simpl; [reflexivity|].
    rewrite (IH c), IHc. reflexivity.
Qed.

(** ** The evaluator *)

Section eval_children_facts.
Variable eval : option lenv -> lval -> outcome (lval * option lenv).

Lemma eval_children_app : forall pre env post pre' env_a post' env_c,
  eval_children eval env pre = Ret (pre', env_a) ->
  eval_children eval env_a post = Ret (post', env_c) ->
  eval_children eval env (pre ++ post) = Ret ((pre' ++ post')%list, env_c).
Proof.
  induction pre as [|c pre IH]; intros env post pre' env_a post' env_c Hpre Hpost; simpl in *.
  - injection Hpre as <- <-. exact Hpost.
  - destruct (eval env c) as [[c' env1]| |]; simpl in *; try discriminate.
    destruct (eval_children eval env1 pre) as [[r env2]| |] eqn:Hr; simpl in *; try discriminate.
    injection Hpre as <- <-.
    rewrite (IH env1 post r env2 post' env_c Hr Hpost). reflexivity.
Qed.

Lemma eval_children_length : forall cells env cells' env',
  eval_children eval env cells = Ret (cells', env') -> length cells' = length cells.
Proof.
  induction cells as [|c cells IH]; intros env cells' env' H; simpl in *.
  - injection H as <- _. reflexivity.
  - destruct (eval env c) as [[c' env1]| |]; simpl in *; try discriminate.
    destruct (eval_children eval env1 cells) as [[r env2]| |] eqn:Hr; simpl in *; try discriminate.
    injection H as <- _. simpl. f_equal. eapply IH. exact Hr.
Qed.

End eval_children_facts.

Lemma first_error_app pre err post :
  first_error pre = None -> is_error err = true ->
  first_error (pre ++ err :: post) = Some (length pre).
Proof.
  unfold is_error. intros Hpre Herr.
  induction pre as [|c pre IH]; simpl in *.
  - rewrite Herr. reflexivity.
  - destruct (bool_decide (type_of c = LVAL_ERROR)); [discriminate|].
    destruct (first_error pre); [discriminate|].
    rewrite IH by reflexivity. reflexivity.
Qed.

Lemma lval_take_middle (pre : list lval) x post :
  lval_take (pre ++ x :: post) (length pre) = Ret x.
Proof.
  unfold lval_take, lval_pop.
  rewrite list_lookup_middle by reflexivity. reflexivity.
Qed.

(** C3, counterexample.  In [(foo (def {x} 1))] the first child, the
    unbound symbol [foo], evaluates to an error; the second child is
    evaluated all the same: the error is returned from an environment in
    which [x] is bound to 1, while it was unbound before. *)
Lemma child_after_error_is_evaluated :
  lval_eval libm_unused 3 (Some top_env)
    (LSexpr [LSymbol "foo"; LSexpr [LSymbol "def"; LQexpr [LSymbol "x"]; LLong 1]])
  = Ret (LError "unbound symbol 'foo'", Some (Lenv (Some root_env) {["x" := LLong 1]} false))
  /\ lenv_get (Some top_env) "x" = Ret (LError "unbound symbol 'x'")
  /\ lenv_get (Some (Lenv (Some root_env) {["x" := LLong 1]} false)) "x" = Ret (LLong 1).
Proof. repeat split; vm_compute; reflexivity. Qed.

(** C3, as amended.  [lval_eval_sexpr] first evaluates every child, left
    to right, each in the environment the previous one left; only then
    does it look for errors.  So when the children before [c] evaluate to
    values that are not errors and [c] evaluates to an error, the children
    after [c] are evaluated as well, and the result is that error together
    with the environment left by the last child. *)
Theorem sexpr_evaluates_all_children_then_returns_first_error
    (M : libm) (fuel : nat) (env env_a env_b env_c : option lenv)
    (pre post pre' post' : list lval) (c err : lval) :
  eval_children (lval_eval M fuel) env pre = Ret (pre', env_a) ->
  first_error pre' = None ->
  lval_eval M fuel env_a c = Ret (err, env_b) ->
  is_error err = true ->
  eval_children (lval_eval M fuel) env_b post = Ret (post', env_c) ->
  lval_eval M (S fuel) env (LSexpr (pre ++ c :: post)) = Ret (err, env_c).
Proof.
  intros Hpre Hnone Hc Herr Hpost.
  assert (Hall : eval_children (lval_eval M fuel) env (pre ++ c :: post)
                 = Ret ((pre' ++ err :: post')%list, env_c)).
  { eapply eval_children_app; [exact Hpre|]. simpl. rewrite Hc. simpl.
    rewrite Hpost. reflexivity. }
  simpl. unfold lval_eval_sexpr. rewrite Hall. simpl.
  rewrite (first_error_app pre' err post' Hnone Herr).
  rewrite lval_take_middle. reflexivity.
Qed.

Lemma sexpr_evaluates_all_children_then_returns_first_error_witness :
  lval_eval libm_unused 3 (Some top_env)
    (LSexpr ([LSymbol "list"] ++ LSymbol "foo" :: [LSexpr [LSymbol "def"; LQexpr [LSymbol "x"]; LLong 1]]))
  = Ret (LError "unbound symbol 'foo'", Some (Lenv (Some root_env) {["x" := LLong 1]} false)).
Proof.
  apply (sexpr_evaluates_all_children_then_returns_first_error libm_unused 2
           (Some top_env) (Some top_env) (Some top_env)
           (Some (Lenv (Some root_env) {["x" := LLong 1]} false))
           [LSymbol "list"] [LSexpr [LSymbol "def"; LQexpr [LSymbol "x"]; LLong 1]]
           [LBuiltin "list" Fn_list] [LSexpr []]);
    vm_compute; reflexivity.
Defined.

(** ** [def] and the read-only root *)

(** C4, counterexample.  In the scope programs are evaluated in, the one
    chained to the root, [(def {+} 1)] is accepted: it returns the empty
    S-expression, and from then on [+] resolves to 1 in that scope. *)
Lemma def_in_top_scope_shadows_builtin :
  lval_eval libm_unused 2 (Some top_env) (LSexpr [LSymbol "def"; LQexpr [LSymbol "+"]; LLong 1])
  = Ret (LSexpr [], Some (Lenv (Some root_env) {["+" := LLong 1]} false))
  /\ lenv_get (Some (Lenv (Some root_env) {["+" := LLong 1]} false)) "+" = Ret (LLong 1)
  /\ lenv_get (Some top_env) "+" = Ret (LBuiltin "+" Fn_add).
Proof. repeat split; vm_compute; reflexivity. Qed.

(** C4, as amended.  [def] of one name is refused exactly when the
    environment it is evaluated in is itself read-only and already binds
    the name: the result is then the error "function '<name>' is a
    built-in", the environment is left as it was and the name still
    resolves to a copy of the value bound before.  In an environment that
    is not read-only (whatever its parent binds), or that is read-only
    and does not bind the name yet, the same [def] returns the empty
    S-expression and binds the name there.  Evaluated in the root,
    [(def {+} 1)] is refused, and [(+ 1 2)] is 3 afterwards. *)
Theorem def_is_refused_in_a_read_only_scope_only (s : string) (v : lval) :
  (forall parent table b,
      table !! s = Some b ->
      builtin_def (Some (Lenv parent table true)) "def" [LQexpr [LSymbol s]; v]
      = Ret (lval_error ("function '" +:+ s +:+ "' is a built-in"), Some (Lenv parent table true))
      /\ lenv_get (Some (Lenv parent table true)) s = Ret (lval_copy b))
  /\ (forall parent table,
         builtin_def (Some (Lenv parent table false)) "def" [LQexpr [LSymbol s]; v]
         = Ret (LSexpr [], Some (Lenv parent (<[s := lval_copy v]> table) false)))
  /\ (forall parent table,
         table !! s = None ->
         builtin_def (Some (Lenv parent table true)) "def" [LQexpr [LSymbol s]; v]
         = Ret (LSexpr [], Some (Lenv parent (<[s := lval_copy v]> table) true)))
  /\ lval_eval libm_unused 2 (Some root_env) (LSexpr [LSymbol "def"; LQexpr [LSymbol "+"]; LLong 1])
     = Ret (LError "function '+' is a built-in", Some root_env)
  /\ lval_eval libm_unused 2 (Some root_env) (LSexpr [LSymbol "+"; LLong 1; LLong 2])
     = Ret (LLong 3, Some root_env).
Proof.
  split; [|split; [|split; [|split]]].
  - intros parent table b Hb. split.
    + unfold builtin_def. simpl. rewrite Hb. reflexivity.
    + simpl. rewrite Hb. reflexivity.
  - intros parent table. reflexivity.
  - intros parent table Hs. unfold builtin_def. simpl. rewrite Hs. reflexivity.
  - vm_compute. reflexivity.
  - vm_compute. reflexivity.
Qed.

Lemma def_is_refused_in_a_read_only_scope_only_witness :
  builtin_def (Some root_env) "def" [LQexpr [LSymbol "+"]; LLong 1]
  = Ret (LError "function '+' is a built-in", Some root_env)
  /\ lenv_get (Some root_env) "+" = Ret (LBuiltin "+" Fn_add).
Proof.
  destruct (def_is_refused_in_a_read_only_scope_only "+" (LLong 1)) as (Hro & _).
  apply (Hro None (lenv_table root_env) (LBuiltin "+" Fn_add)).
  vm_compute. reflexivity.
Defined.

End EvalFacts.

(** ** Copies in memory *)

Module MemFacts.
Import Mem.

Lemma malloc_spec (h : heap) (c : cell) :
  (fresh (dom h) ∉ dom h) /\ h ⊆ <[fresh (dom h) := c]> h
  /\ <[fresh (dom h) := c]> h !! fresh (dom h) = Some c.
Proof.
  pose proof (is_fresh (dom h)) as Hfresh.
  split; [exact Hfresh|]. split.
  - apply insert_subseteq. apply not_elem_of_dom. exact Hfresh.
  - apply lookup_insert_eq.
Qed.

Lemma fresh_in_smaller (h0 h : heap) (l : loc) : h0 ⊆ h -> l ∉ dom h -> l ∉ dom h0.
Proof.
  intros Hsub Hl Hin. apply Hl.
  apply elem_of_dom in Hin as [c Hc]. apply elem_of_dom. exists c.
  eapply lookup_weaken; eassumption.
Qed.

Lemma option_Forall2_mono {A B} (R R' : A -> B -> Prop) (o1 : option A) (o2 : option B) :
  (forall a b, R a b -> R' a b) -> option_Forall2 R o1 o2 -> option_Forall2 R' o1 o2.
Proof. intros HR H. destruct H; constructor. apply HR. assumption. Qed.

(** A copy stays a copy when the heap it lives in grows. *)
Lemma copy_of_mono n : forall (h0 : heap) p (h h' : heap) r,
  h ⊆ h' -> copy_of n h0 p h r -> copy_of n h0 p h' r.
Proof.
  induction n as [|n IH]; intros h0 p h h' r Hsub; [intros []|].
  simpl. intros [Hfresh Hshape]. split; [exact Hfresh|].
  destruct (h0 !! p) as [[a|]|]; try contradiction.
  destruct (h !! r) as [[b|]|] eqn:Hr; try contradiction.
  rewrite (lookup_weaken _ _ _ _ Hr Hsub).
  destruct a, b; try contradiction; try exact Hshape.
  - destruct Hshape as ((He & Henv) & Hf & Hb).
    split; [split; [exact He|] | split; eapply IH; eassumption].
    destruct (h0 !! env) as [[|ec]|]; try contradiction.
    destruct (h !! env0) as [[|ec']|] eqn:He'; try contradiction.
    rewrite (lookup_weaken _ _ _ _ He' Hsub).
    destruct Henv as (Hp & Hro & Ht). split; [exact Hp|]. split; [exact Hro|].
    intros k. eapply option_Forall2_mono; [|apply Ht].
    intros c c'. apply IH. exact Hsub.
  - eapply Forall2_impl; [exact Hshape|]. intros c c'. apply IH. exact Hsub.
  - eapply Forall2_impl; [exact Hshape|]. intros c c'. apply IH. exact Hsub.
Qed.

Section copy_loops.
Variable n : nat.
Variable h0 : heap.
Variable copy : loc -> heap -> outcome (loc * heap).
Hypothesis copy_spec : forall (h : heap) p,
  h0 ⊆ h -> wf_val n h0 p ->
  exists r (h' : heap), copy p h = Ret (r, h') /\ h ⊆ h' /\ copy_of n h0 p h' r.

Lemma copy_cells_spec : forall cells (h : heap),
  h0 ⊆ h -> Forall (wf_val n h0) cells ->
  exists cells' (h' : heap),
    copy_cells copy cells h = Ret (cells', h') /\ h ⊆ h'
    /\ Forall2 (fun c c' => copy_of n h0 c h' c') cells cells'.
Proof.
  induction cells as [|c cells IH]; intros h Hsub Hwf.
  - exists [], h. split; [reflexivity|]. split; [reflexivity | constructor].
  - apply Forall_cons in Hwf as [Hc Hcells].
    destruct (copy_spec h c Hsub Hc) as (c' & h1 & Hcopy & Hsub1 & Hcopy_of).
    destruct (IH h1 (transitivity Hsub Hsub1) Hcells) as (rest & h2 & Hrest & Hsub2 & Hall).
    exists (c' :: rest), h2. simpl. rewrite Hcopy. simpl. rewrite Hrest. simpl.
    split; [reflexivity|]. split; [etransitivity; eassumption|].
    constructor; [|exact Hall]. eapply copy_of_mono; eassumption.
Qed.

Lemma copy_table_spec (t : gmap string loc) (h : heap) :
  h0 ⊆ h -> map_Forall (fun _ x => wf_val n h0 x) t ->
  exists (t' : gmap string loc) (h' : heap),
    copy_table copy t h = Ret (t', h') /\ h ⊆ h'
    /\ forall k, option_Forall2 (fun c c' => copy_of n h0 c h' c') (t !! k) (t' !! k).
Proof.
  intros Hsub. unfold copy_table.
  apply (map_fold_weak_ind (fun acc (m : gmap string loc) =>
    map_Forall (fun _ x => wf_val n h0 x) m ->
    exists (t' : gmap string loc) (h' : heap),
      acc = Ret (t', h') /\ h ⊆ h'
      /\ forall k, option_Forall2 (fun c c' => copy_of n h0 c h' c') (m !! k) (t' !! k))).
  - intros _. exists ∅, h. split; [reflexivity|]. split; [reflexivity|].
    intros k. rewrite !lookup_empty. constructor.
  - intros i x m acc Hi IH Hwf.
    apply map_Forall_insert in Hwf as [Hx Hm]; [|exact Hi].
    destruct (IH Hm) as (t' & h1 & -> & Hsub1 & Hrel).
    destruct (copy_spec h1 x (transitivity Hsub Hsub1) Hx) as (x' & h2 & Hcopy & Hsub2 & Hcopy_of).
    exists (<[i := x']> t'), h2. simpl. rewrite Hcopy. simpl.
    split; [reflexivity|]. split; [etransitivity; eassumption|].
    intros k. destruct (decide (i = k)) as [->|Hne].
    + rewrite !lookup_insert_eq. constructor. exact Hcopy_of.
    + rewrite !lookup_insert_ne by exact Hne.
      eapply option_Forall2_mono; [|apply Hrel].
      intros c c'. apply copy_of_mono. exact Hsub2.
Qed.

End copy_loops.
Lemma malloc_copy_scalar (n : nat) (h0 h : heap) (p : loc) (a : node) :
  h0 ⊆ h -> h0 !! p = Some (CVal a) ->
  match a with
  | NUserFun _ _ _ | NSexpr _ | NQexpr _ => False
  | _ => True
  end ->
  h ⊆ (malloc h (CVal a)).2 /\ copy_of (S n) h0 p (malloc h (CVal a)).2 (malloc h (CVal a)).1.
Proof.
  intros Hsub Hp Hscalar. unfold malloc.
  destruct (malloc_spec h (CVal a)) as (Hfresh & Hgrow & Hat).
  cbn [fst snd]. split; [exact Hgrow|].
  cbn [copy_of]. split; [eapply fresh_in_smaller; eassumption|].
  rewrite Hp, Hat. destruct a; try contradiction; reflexivity.
Qed.

(** [lval_copy] on a well-formed value returns, leaves every object of
    the heap as it was, and its result is a copy made of new objects. *)
Lemma lval_copy_spec n : forall (h0 h : heap) p,
  h0 ⊆ h -> wf_val n h0 p ->
  exists r (h' : heap), lval_copy n p h = Ret (r, h') /\ h ⊆ h' /\ copy_of n h0 p h' r.
Proof.
  induction n as [|n IH]; intros h0 h p Hsub Hwf; [destruct Hwf|].
  simpl in Hwf. destruct (h0 !! p) as [[a|]|] eqn:Hp; try contradiction.
  pose proof (lookup_weaken _ _ _ _ Hp Hsub) as Hp'.
  destruct a as [x|x|x|x|x|x|x|e f b|cells|cells];
    try (eexists _, _; cbn [lval_copy]; rewrite Hp';
         split; [apply (f_equal Ret); apply surjective_pairing|];
         apply (malloc_copy_scalar n h0 h p _ Hsub Hp); exact I).
  - (* user function *)
    destruct Hwf as (Henv & Hf & Hb).
    destruct (h0 !! e) as [[|ec]|] eqn:He; try contradiction.
    pose proof (lookup_weaken _ _ _ _ He Hsub) as He'.
    destruct (copy_table_spec n h0 (lval_copy n) (IH h0) (table ec) h Hsub Henv)
      as (t' & h1 & Ht & Hsub1 & Hrel).
    pose (ec' := {| parent := parent ec; table := t'; read_only := read_only ec |}).
    destruct (malloc_spec h1 (CEnv ec')) as (Hfresh_e & Hgrow_e & Hat_e).
    assert (Hsub1' : h0 ⊆ <[fresh (dom h1) := CEnv ec']> h1)
      by (etransitivity; [exact Hsub|]; etransitivity; eassumption).
    destruct (IH h0 _ f Hsub1' Hf) as (f' & h2 & Hcf & Hsub2 & Hcopy_f).
    assert (Hsub2' : h0 ⊆ h2) by (etransitivity; eassumption).
    destruct (IH h0 h2 b Hsub2' Hb) as (b' & h3 & Hcb & Hsub3 & Hcopy_b).
    destruct (malloc_spec h3 (CVal (NUserFun (fresh (dom h1)) f' b'))) as (Hfresh & Hgrow & Hat).
    eexists _, _. split; [|split].
    + cbn [lval_copy]. rewrite Hp'. unfold lenv_copy. rewrite He', Ht.
      unfold malloc. cbn [mbind outcome_bind]. fold ec'. rewrite Hcf.
      cbn [mbind outcome_bind]. rewrite Hcb. cbn [mbind outcome_bind]. reflexivity.
    + etransitivity; [exact Hsub1|]. etransitivity; [exact Hgrow_e|].
      etransitivity; [exact Hsub2|]. etransitivity; [exact Hsub3|]. exact Hgrow.
    + assert (Hsub3' : h0 ⊆ h3) by (etransitivity; [exact Hsub2'|exact Hsub3]).
      assert (Hsub01 : h0 ⊆ h1) by (etransitivity; [exact Hsub|exact Hsub1]).
      cbn [copy_of]. split.
      { eapply fresh_in_smaller; [exact Hsub3'|exact Hfresh]. }
      rewrite Hp, Hat. split; [split|split].
      * eapply fresh_in_smaller; [exact Hsub01|exact Hfresh_e].
      * rewrite He.
        assert (Hlook : <[fresh (dom h3) := CVal (NUserFun (fresh (dom h1)) f' b')]> h3
                        !! fresh (dom h1) = Some (CEnv ec')).
        { eapply lookup_weaken; [exact Hat_e|].
          etransitivity; [exact Hsub2|]. etransitivity; [exact Hsub3|exact Hgrow]. }
        rewrite Hlook. split; [reflexivity|]. split; [reflexivity|].
        intros k. eapply option_Forall2_mono; [|apply Hrel].
        intros c c'. apply copy_of_mono.
        etransitivity; [exact Hgrow_e|]. etransitivity; [exact Hsub2|].
        etransitivity; [exact Hsub3|exact Hgrow].
      * eapply copy_of_mono; [|exact Hcopy_f]. etransitivity; [exact Hsub3|exact Hgrow].
      * eapply copy_of_mono; [|exact Hcopy_b]. exact Hgrow.
  - (* S-expression *)
    destruct (copy_cells_spec n h0 (lval_copy n) (IH h0) cells h Hsub Hwf)
      as (cells' & h1 & Hc & Hsub1 & Hall).
    destruct (malloc_spec h1 (CVal (NSexpr cells'))) as (Hfresh & Hgrow & Hat).
    eexists _, _. split; [|split].
    + cbn [lval_copy]. rewrite Hp', Hc. unfold malloc. reflexivity.
    + etransitivity; [exact Hsub1|exact Hgrow].
    + cbn [copy_of]. split.
      { eapply fresh_in_smaller; [|exact Hfresh]. etransitivity; [exact Hsub|exact Hsub1]. }
      rewrite Hp, Hat. eapply Forall2_impl; [exact Hall|].
      intros c c'. apply copy_of_mono. exact Hgrow.
  - (* Q-expression *)
    destruct (copy_cells_spec n h0 (lval_copy n) (IH h0) cells h Hsub Hwf)
      as (cells' & h1 & Hc & Hsub1 & Hall).
    destruct (malloc_spec h1 (CVal (NQexpr cells'))) as (Hfresh & Hgrow & Hat).
    eexists _, _. split; [|split].
    + cbn [lval_copy]. rewrite Hp', Hc. unfold malloc. reflexivity.
    + etransitivity; [exact Hsub1|exact Hgrow].
    + cbn [copy_of]. split.
      { eapply fresh_in_smaller; [|exact Hfresh]. etransitivity; [exact Hsub|exact Hsub1]. }
      rewrite Hp, Hat. eapply Forall2_impl; [exact Hall|].
      intros c c'. apply copy_of_mono. exact Hgrow.
Qed.

(** Every object that belongs to a copy is new. *)
Lemma copy_of_reachable_fresh n : forall (h0 : heap) p (h : heap) r l,
  copy_of n h0 p h r -> reachable h r l -> l ∉ dom h0.
Proof.
  induction n as [|n IH]; intros h0 p h r l Hcopy Hreach; [destruct Hcopy|].
  simpl in Hcopy. destruct Hcopy as [Hfresh Hshape].
  inversion Hreach as [|a c m l' Hr Hmem Hrest]; subst; [exact Hfresh|].
  destruct (h0 !! p) as [[a|]|]; try contradiction.
  rewrite Hr in Hshape. destruct c as [b|]; [|contradiction].
  destruct a, b; try contradiction; simpl in Hmem;
    try (apply elem_of_nil in Hmem; contradiction).
  - (* user function *)
    destruct Hshape as ((He & Henv) & Hf & Hb).
    apply elem_of_cons in Hmem as [->|Hmem].
    { (* the environment *)
      inversion Hrest as [|a c m' l' He' Hmem' Hrest']; subst; [exact He|].
      destruct (h0 !! env) as [[|ec]|]; try contradiction.
      rewrite He' in Henv. destruct c as [|ec']; [contradiction|].
      destruct Henv as (_ & _ & Ht). simpl in Hmem'.
      apply list_elem_of_fmap in Hmem' as ([k v'] & -> & Hkv).
      apply elem_of_map_to_list in Hkv. simpl in Hrest'.
      specialize (Ht k). rewrite Hkv in Ht.
      inversion Ht as [v v'' Hcopy_v|]; subst.
      exact (IH _ _ _ _ _ Hcopy_v Hrest'). }
    apply elem_of_cons in Hmem as [->|Hmem]; [exact (IH _ _ _ _ _ Hf Hrest)|].
    apply elem_of_cons in Hmem as [->|Hmem]; [exact (IH _ _ _ _ _ Hb Hrest)|].
    apply elem_of_nil in Hmem. contradiction.
  - apply list_elem_of_lookup in Hmem as [i Hi].
    destruct (Forall2_lookup_r _ _ _ _ _ Hshape Hi) as (c & _ & Hc).
    exact (IH _ _ _ _ _ Hc Hrest).
  - apply list_elem_of_lookup in Hmem as [i Hi].
    destruct (Forall2_lookup_r _ _ _ _ _ Hshape Hi) as (c & _ & Hc).
    exact (IH _ _ _ _ _ Hc Hrest).
Qed.
Lemma lenv_get_total (k : string) (fuel : nat) (h : heap) : forall hops e,
  wf_chain hops fuel h e ->
  exists r (h' : heap), lenv_get hops fuel e k h = Ret (r, h') /\ h ⊆ h'.
Proof.
  induction hops as [|hops IH]; intros e Hwf; [destruct Hwf|].
  simpl in Hwf. simpl lenv_get.
  destruct (h !! e) as [[|ec]|]; try contradiction.
  destruct Hwf as [Htable Hparent].
  destruct (table ec !! k) as [p|] eqn:Hk.
  - destruct (lval_copy_spec fuel h h p (reflexivity h) (Htable k p Hk))
      as (r & h' & Hcopy & Hsub & _).
    exists r, h'. split; assumption.
  - destruct (parent ec) as [p|].
    + apply IH. exact Hparent.
    + eexists _, _. split; [apply (f_equal Ret); apply surjective_pairing|].
      apply malloc_spec.
Qed.

(** C9.  [lenv_get] looks the name up in the table of the environment it
    is given.  On a hit the result is a copy of the bound value: the call
    returns, every object of the heap, the environment and the bound value
    among them, is as before, and no object that belongs to the result
    existed before, so that no change made to the objects of the result
    changes any of the old ones.  On a miss with a parent the result is
    that of the lookup in the parent.  On a miss without parent, at the
    root, the result is a new error value whose message is "unbound symbol
    '<name>'" as [lval_error] renders it.  Along a chain of scopes that
    ends within [hops] links and binds well-formed values the lookup
    returns. *)
Theorem lenv_get_searches_chain_and_copies
    (h : heap) (e : loc) (ec : lenv_cell) (k : string) (hops fuel : nat) :
  h !! e = Some (CEnv ec) ->
  (forall p, table ec !! k = Some p -> wf_val fuel h p ->
     exists r (h' : heap),
       lenv_get (S hops) fuel e k h = Ret (r, h')
       /\ h ⊆ h'
       /\ copy_of fuel h p h' r
       /\ forall h'' : heap,
            (forall q, reachable h' r q \/ h'' !! q = h' !! q) ->
            forall q, q ∈ dom h -> h'' !! q = h !! q)
  /\ (forall p, table ec !! k = None -> parent ec = Some p ->
         lenv_get (S hops) fuel e k h = lenv_get hops fuel p k h)
  /\ (table ec !! k = None -> parent ec = None ->
      lenv_get (S hops) fuel e k h
      = Ret (fresh (dom h),
             <[fresh (dom h) := CVal (NError (substring 0 510 ("unbound symbol '" +:+ k +:+ "'")))]> h))
  /\ (wf_chain (S hops) fuel h e ->
      exists r (h' : heap), lenv_get (S hops) fuel e k h = Ret (r, h') /\ h ⊆ h').
Proof.
  intros He. split; [|split; [|split]].
  - intros p Hk Hwf.
    destruct (lval_copy_spec fuel h h p (reflexivity h) Hwf) as (r & h' & Hcopy & Hsub & Hcopy_of).
    exists r, h'. split; [|split; [|split]].
    + simpl. rewrite He, Hk. exact Hcopy.
    + exact Hsub.
    + exact Hcopy_of.
    + intros h'' Hchanged q Hq.
      apply elem_of_dom in Hq as [c Hc].
      destruct (Hchanged q) as [Hreach | Hsame].
      * exfalso. apply (copy_of_reachable_fresh fuel h p h' r q Hcopy_of Hreach).
        apply elem_of_dom. exists c. exact Hc.
      * rewrite Hsame, Hc. eapply lookup_weaken; eassumption.
  - intros p Hk Hp. simpl. rewrite He, Hk, Hp. reflexivity.
  - intros Hk Hp. simpl. rewrite He, Hk, Hp. reflexivity.
  - apply lenv_get_total.
Qed.

Lemma lenv_get_searches_chain_and_copies_witness :
  (exists r (h' : heap),
      lenv_get 1 2 0%nat "x" example_heap = Ret (r, h')
      /\ example_heap ⊆ h'
      /\ copy_of 2 example_heap 1%nat h' r
      /\ forall h'' : heap,
           (forall q, reachable h' r q \/ h'' !! q = h' !! q) ->
           forall q, q ∈ dom example_heap -> h'' !! q = example_heap !! q)
  /\ lenv_get 1 2 0%nat "y" example_heap
     = Ret (4%nat, <[4%nat := CVal (NError "unbound symbol 'y'")]> example_heap)
  /\ lenv_get 2 2 3%nat "x" example_heap = lenv_get 1 2 0%nat "x" example_heap
  /\ exists r (h' : heap), lenv_get 2 2 3%nat "x" example_heap = Ret (r, h') /\ example_heap ⊆ h'.
Proof.
  split; [|split; [|split]].
  - destruct (lenv_get_searches_chain_and_copies example_heap 0%nat
                {| parent := None; table := {[ "x" := 1%nat ]}; read_only := false |}
                "x" 0%nat 2%nat eq_refl) as (Hhit & _).
    apply (Hhit 1%nat); [reflexivity|].
    vm_compute. repeat constructor.
  - destruct (lenv_get_searches_chain_and_copies example_heap 0%nat
                {| parent := None; table := {[ "x" := 1%nat ]}; read_only := false |}
                "y" 0%nat 2%nat eq_refl) as (_ & _ & Hroot & _).
    rewrite Hroot by reflexivity. vm_compute. reflexivity.
  - destruct (lenv_get_searches_chain_and_copies example_heap 3%nat
                {| parent := Some 0%nat; table := ∅; read_only := false |}
                "x" 1%nat 2%nat eq_refl) as (_ & Hup & _).
    apply (Hup 0%nat); reflexivity.
  - destruct (lenv_get_searches_chain_and_copies example_heap 3%nat
                {| parent := Some 0%nat; table := ∅; read_only := false |}
                "x" 1%nat 2%nat eq_refl) as (_ & _ & _ & Htotal).
    apply Htotal. cbn [wf_chain].
    change (example_heap !! 3%nat)
      with (Some (CEnv {| parent := Some 0%nat; table := ∅; read_only := false |})).
    cbn [parent table]. split; [apply map_Forall_empty|].
    change (example_heap !! 0%nat)
      with (Some (CEnv {| parent := None; table := {[ "x" := 1%nat ]}; read_only := false |})).
    cbn [parent table]. split; [|exact I].
    apply map_Forall_singleton. vm_compute. repeat constructor.
Defined.

End MemFacts.

(** * Further properties of the code *)

(** ** List builtins: what they return and what they refuse *)

Module ListFacts.
Import Eval.

Lemma lval_pop_last (q : list lval) (x : lval) :
  lval_pop (q ++ [x]) (length (q ++ [x]) - 1) = Ret (x, q).
Proof.
  unfold lval_pop.
  replace (length (q ++ [x]) - 1)%nat with (length q) by (rewrite length_app; simpl; lia).
  rewrite list_lookup_middle by reflexivity.
  rewrite delete_middle, app_nil_r. reflexivity.
Qed.

(** [init] on a Q-expression that ends in [x]: the checks pass and the
    last cell is popped. *)
Ltac init_of_snoc q x :=
  unfold builtin_init; cbn -[lval_pop length Nat.sub];
  change (length [LQexpr (q ++ [x])]) with 1%nat; cbn [Nat.eqb negb];
  rewrite bool_decide_eq_true_2 by reflexivity; cbn [negb];
  replace (length (q ++ [x]) =? 0)%nat with false
    by (symmetry; apply Nat.eqb_neq; rewrite length_app; simpl; lia);
  change (lval_take [LQexpr (q ++ [x])] 0) with (Ret (LQexpr (q ++ [x])));
  cbn [mbind outcome_bind expr_cells]; rewrite lval_pop_last; reflexivity.

(** X1.  On one non-empty Q-expression [init] returns the Q-expression
    of all its elements but the last, and [tail] the Q-expression of all
    its elements but the first, in order. *)
Theorem init_drops_last_tail_drops_first {E : Type} (e : E) (symbol : string)
    (q : list lval) (x : lval) :
  builtin_init (Some e) symbol [LQexpr (q ++ [x])] = Ret (LQexpr q)
  /\ builtin_tail (Some e) symbol [LQexpr (x :: q)] = Ret (LQexpr q).
Proof.
  split.
  - init_of_snoc q x.
  - reflexivity.
Qed.

(** X2.  Splitting and joining: for every non-empty Q-expression, [join]
    applied to the results of [head] and of [tail] gives the Q-expression
    back, and so does [join] applied to the result of [init] and the
    Q-expression of the last element. *)
Theorem join_of_head_and_tail_restores {E : Type} (e : E) (s1 s2 s3 : string) :
  (forall x q,
      exists h t,
        builtin_head (Some e) s1 [LQexpr (x :: q)] = Ret h
        /\ builtin_tail (Some e) s2 [LQexpr (x :: q)] = Ret t
        /\ builtin_join (Some e) s3 [h; t] = Ret (LQexpr (x :: q)))
  /\ (forall q x,
         exists i,
           builtin_init (Some e) s1 [LQexpr (q ++ [x])] = Ret i
           /\ builtin_join (Some e) s3 [i; LQexpr [x]] = Ret (LQexpr (q ++ [x]))).
Proof.
  split.
  - intros x q. exists (LQexpr [x]), (LQexpr q). split; [|split].
    + unfold builtin_head. cbn -[head_loop].
      rewrite (EvalFacts.head_loop_keeps_first x q (S (length q))) by lia. reflexivity.
    + reflexivity.
    + change [LQexpr [x]; LQexpr q] with (map LQexpr [[x]; q]).
      unfold builtin_join. rewrite EvalFacts.check_all_qexpr_map. cbn -[join_loop].
      change [LQexpr q] with (map LQexpr [q]).
      rewrite EvalFacts.join_loop_concat. simpl. rewrite app_nil_r. reflexivity.
  - intros q x. exists (LQexpr q). split; [init_of_snoc q x|].
    change [LQexpr q; LQexpr [x]] with (map LQexpr [q; [x]]).
    unfold builtin_join. rewrite EvalFacts.check_all_qexpr_map. cbn -[join_loop].
    change [LQexpr [x]] with (map LQexpr [[x]]).
    rewrite EvalFacts.join_loop_concat. simpl. reflexivity.
Qed.

(** X3.  The builtins that take one Q-expression ([head], [tail], [init],
    [len], [eval]) check their bundle in the same way before doing
    anything: a bundle that does not hold exactly one argument is answered
    with the argument-count error, one argument that is not a Q-expression
    with the type-mismatch error.  [eval] then returns with the
    environment as it was and without evaluating anything; [tail] and
    [init] answer the empty Q-expression with the empty-list error. *)
Theorem one_list_argument_is_checked {E : Type} (e : E) (symbol : string)
    (eval : option lenv -> lval -> outcome (lval * option lenv)) (env : lenv) :
  (forall val, length val <> 1%nat ->
     builtin_head (Some e) symbol val = Ret (err_num_args symbol 1 (length val))
     /\ builtin_tail (Some e) symbol val = Ret (err_num_args symbol 1 (length val))
     /\ builtin_init (Some e) symbol val = Ret (err_num_args symbol 1 (length val))
     /\ builtin_len (Some e) symbol val = Ret (err_num_args symbol 1 (length val))
     /\ builtin_eval eval (Some env) symbol val
        = Ret (err_num_args symbol 1 (length val), Some env))
  /\ (forall v, type_of v <> LVAL_QEXPRESSION ->
        builtin_head (Some e) symbol [v] = Ret (err_type_arg symbol LVAL_QEXPRESSION (type_of v))
        /\ builtin_tail (Some e) symbol [v] = Ret (err_type_arg symbol LVAL_QEXPRESSION (type_of v))
        /\ builtin_init (Some e) symbol [v] = Ret (err_type_arg symbol LVAL_QEXPRESSION (type_of v))
        /\ builtin_len (Some e) symbol [v] = Ret (err_type_arg symbol LVAL_QEXPRESSION (type_of v))
        /\ builtin_eval eval (Some env) symbol [v]
           = Ret (err_type_arg symbol LVAL_QEXPRESSION (type_of v), Some env))
  /\ builtin_tail (Some e) symbol [LQexpr []] = Ret (err_empty symbol)
  /\ builtin_init (Some e) symbol [LQexpr []] = Ret (err_empty symbol).
Proof.
  split; [|split; [|split; reflexivity]].
  - intros val Hlen.
    assert (Hne : (length val =? 1)%nat = false) by (apply Nat.eqb_neq; exact Hlen).
    unfold builtin_head, builtin_tail, builtin_init, builtin_len, builtin_eval.
    rewrite Hne. repeat split.
  - intros v Hv.
    assert (Hd : bool_decide (type_of v = LVAL_QEXPRESSION) = false)
      by (apply bool_decide_eq_false; exact Hv).
    unfold builtin_head, builtin_tail, builtin_init, builtin_len, builtin_eval.
    cbn [length Nat.eqb negb expr_item lookup list_lookup mbind outcome_bind].
    rewrite Hd. repeat split.
Qed.

Lemma one_list_argument_is_checked_witness :
  builtin_head (Some tt) "head" [LQexpr []; LQexpr []]
  = Ret (LError "function 'head' expects 1 argument, received 2")
  /\ builtin_len (Some tt) "len" [LLong 3]
     = Ret (LError "function 'len' type mismatch - expected Q-Expression, received Number").
Proof.
  destruct (one_list_argument_is_checked tt "head" (fun env v => Ret (v, env)) lenv_new)
    as (Hcount & _).
  destruct (one_list_argument_is_checked tt "len" (fun env v => Ret (v, env)) lenv_new)
    as (_ & Htype & _).
  split.
  - apply (Hcount [LQexpr []; LQexpr []]). discriminate.
  - apply (Htype (LLong 3)). discriminate.
Defined.

Lemma check_all_qexpr_first symbol pre v post :
  Forall (fun w => type_of w = LVAL_QEXPRESSION) pre -> type_of v <> LVAL_QEXPRESSION ->
  check_all_qexpr symbol (pre ++ v :: post)
  = Some (err_type_arg symbol LVAL_QEXPRESSION (type_of v)).
Proof.
  intros Hpre Hv. induction Hpre as [|w pre Hw _ IH]; simpl.
  - rewrite bool_decide_eq_false_2 by exact Hv. reflexivity.
  - rewrite bool_decide_eq_true_2 by exact Hw. exact IH.
Qed.

(** X4.  [join] checks every argument before it joins any: when some
    argument is not a Q-expression the result is the type-mismatch error
    for the first such argument, whatever comes before or after it. *)
Theorem join_refuses_any_non_list_argument {E : Type} (e : E) (symbol : string)
    (pre post : list lval) (v : lval) :
  Forall (fun w => type_of w = LVAL_QEXPRESSION) pre ->
  type_of v <> LVAL_QEXPRESSION ->
  builtin_join (Some e) symbol (pre ++ v :: post)
  = Ret (err_type_arg symbol LVAL_QEXPRESSION (type_of v)).
Proof.
  intros Hpre Hv. unfold builtin_join.
  rewrite (check_all_qexpr_first symbol pre v post Hpre Hv). reflexivity.
Qed.

Lemma join_refuses_any_non_list_argument_witness :
  builtin_join (Some tt) "join" ([LQexpr [LLong 1]] ++ LLong 2 :: [LQexpr []])
  = Ret (LError "function 'join' type mismatch - expected Q-Expression, received Number").
Proof.
  apply (join_refuses_any_non_list_argument tt "join" [LQexpr [LLong 1]] [LQexpr []] (LLong 2)).
  - repeat constructor.
  - discriminate.
Defined.

(** X5.  [len] returns the number of elements as an Integer, and the
    number of elements of a [join] is the sum of the numbers of elements
    of its arguments. *)
Theorem len_counts_and_adds_over_join {E : Type} (e : E) (s1 s2 : string) :
  (forall q, builtin_len (Some e) s1 [LQexpr q] = Ret (LLong (Z.of_nat (length q))))
  /\ (forall q qs,
         exists j,
           builtin_join (Some e) s2 (map LQexpr (q :: qs)) = Ret j
           /\ builtin_len (Some e) s1 [j]
              = Ret (LLong (Z.of_nat (sum_list (map length (q :: qs)))))).
Proof.
  split; [reflexivity|].
  intros q qs. exists (LQexpr (concat (q :: qs))). split.
  - unfold builtin_join. rewrite EvalFacts.check_all_qexpr_map. cbn -[join_loop].
    rewrite EvalFacts.join_loop_concat. reflexivity.
  - assert (Hsum : forall l : list (list lval),
               length (concat l) = sum_list (map length l)).
    { induction l as [|c cs IH]; simpl; [reflexivity|]. rewrite length_app, IH. reflexivity. }
    cbn -[concat sum_list]. rewrite Hsum. reflexivity.
Qed.

End ListFacts.

(** ** Environments at the level of values *)


Lemma lenv_put_refused (e : lenv) (k : string) (v : lval) :
  fst (lenv_put e k v) = true ->
  snd (lenv_put e k v) = e /\ lenv_read_only e = true /\ is_Some (lenv_table e !! k).
Proof.
  destruct e as [parent table read_only]. unfold lenv_put.
  destruct (read_only && bool_decide (is_Some (table !! k))) eqn:Hguard; cbn [fst snd];
    [|discriminate].
  intros _. apply andb_true_iff in Hguard as [Hro Hbound].
  apply bool_decide_eq_true in Hbound. repeat split; assumption.
Qed.

Lemma lenv_put_made (e : lenv) (k : string) (v : lval) :
  fst (lenv_put e k v) = false ->
  lenv_get (Some (snd (lenv_put e k v))) k = Ret v
  /\ (forall k', k' <> k ->
        lenv_get (Some (snd (lenv_put e k v))) k' = lenv_get (Some e) k')
  /\ lenv_parent (snd (lenv_put e k v)) = lenv_parent e
  /\ lenv_read_only (snd (lenv_put e k v)) = lenv_read_only e.
Proof.
  destruct e as [parent table read_only]. unfold lenv_put.
  destruct (read_only && bool_decide (is_Some (table !! k))) eqn:Hguard; cbn [fst snd];
    [discriminate|].
  intros _. repeat split.
  - simpl. rewrite lookup_insert_eq, !EvalFacts.lval_copy_id. reflexivity.
  - intros k' Hne. simpl. rewrite lookup_insert_ne by congruence. reflexivity.
Qed.

(** X6.  [lenv_put] and [lenv_get]: a binding that is refused (the
    environment is read-only and binds the key) leaves the environment as
    it was; a binding that is made is what [lenv_get] returns for the key
    afterwards, lookups of every other key are as before, and neither the
    parent link nor the flag changes. *)
Theorem lenv_put_then_get (e : lenv) (k : string) (v : lval) :
  (fst (lenv_put e k v) = true ->
     snd (lenv_put e k v) = e
     /\ lenv_read_only e = true /\ is_Some (lenv_table e !! k))
  /\ (fst (lenv_put e k v) = false ->
        lenv_get (Some (snd (lenv_put e k v))) k = Ret v
        /\ (forall k', k' <> k ->
              lenv_get (Some (snd (lenv_put e k v))) k' = lenv_get (Some e) k')
        /\ lenv_parent (snd (lenv_put e k v)) = lenv_parent e
        /\ lenv_read_only (snd (lenv_put e k v)) = lenv_read_only e)
  /\ (lenv_read_only e = false -> fst (lenv_put e k v) = false).
Proof.
  split; [apply lenv_put_refused|]. split; [apply lenv_put_made|].
  destruct e as [parent table read_only]. simpl. intros ->. reflexivity.
Qed.

Lemma lenv_put_then_get_witness :
  lenv_get (Some (snd (lenv_put Eval.top_env "x" (LLong 3)))) "x" = Ret (LLong 3)
  /\ snd (lenv_put Eval.root_env "+" (LLong 3)) = Eval.root_env.
Proof.
  split.
  - destruct (lenv_put_then_get Eval.top_env "x" (LLong 3)) as (_ & Hmade & _).
    apply Hmade. reflexivity.
  - destruct (lenv_put_then_get Eval.root_env "+" (LLong 3)) as (Hrefused & _).
    apply Hrefused. vm_compute. reflexivity.
Defined.




(** ** [def]: what it binds and what it refuses *)

Module DefFacts.
Import Eval.

Lemma check_all_symbols_names symbol names :
  check_all_symbols symbol (map LSymbol names) = None.
Proof. induction names as [|k names IH]; simpl; [reflexivity | exact IH]. Qed.

Lemma check_all_symbols_first symbol pre s post :
  Forall (fun w => type_of w = LVAL_SYMBOL) pre -> type_of s <> LVAL_SYMBOL ->
  check_all_symbols symbol (pre ++ s :: post)
  = Some (err_type_arg symbol LVAL_SYMBOL (type_of s)).
Proof.
  intros Hpre Hs. induction Hpre as [|w pre Hw _ IH]; simpl.
  - rewrite bool_decide_eq_false_2 by exact Hs. reflexivity.
  - rewrite bool_decide_eq_true_2 by exact Hw. exact IH.
Qed.

Lemma def_loop_not_read_only parent q all : forall names vals i table,
  drop i all = vals -> length names = length vals ->
  def_loop (Lenv parent table false) (map LSymbol names) (q :: all) i
  = Ret (None, Lenv parent
                 (foldl (fun t kv => <[kv.1 := lval_copy kv.2]> t) table (zip names vals))
                 false).
Proof.
  induction names as [|k names IH]; intros vals i table Hdrop Hlen.
  - reflexivity.
  - destruct vals as [|v vals]; [discriminate Hlen|].
    assert (Hi : all !! i = Some v).
    { pose proof (lookup_drop all i 0) as H. rewrite Hdrop in H.
      rewrite Nat.add_0_r in H. symmetry. exact H. }
    assert (Hrest : drop (S i) all = vals).
    { rewrite (drop_S _ _ _ Hi) in Hdrop. injection Hdrop as ->. reflexivity. }
    cbn [map def_loop symbol_name mbind outcome_bind].
    unfold expr_item. replace (i + 1)%nat with (S i) by lia.
    change ((q :: all) !! S i) with (all !! i). rewrite Hi.
    cbn [mbind outcome_bind lenv_put andb].
    rewrite (IH vals (S i) _ Hrest) by (simpl in Hlen; lia).
    reflexivity.
Qed.

Lemma foldl_insert_other (k : string) : forall names vals (table : gmap string lval),
  k ∉ names ->
  foldl (fun t kv => <[kv.1 := lval_copy kv.2]> t) table (zip names vals) !! k = table !! k.
Proof.
  induction names as [|n names IH]; intros vals table Hk; [reflexivity|].
  destruct vals as [|v vals]; [reflexivity|].
  apply not_elem_of_cons in Hk as [Hne Hk].
  simpl. rewrite IH by exact Hk. apply lookup_insert_ne. congruence.
Qed.

Lemma foldl_insert_bound : forall names vals (table : gmap string lval) i k v,
  NoDup names -> names !! i = Some k -> vals !! i = Some v ->
  foldl (fun t kv => <[kv.1 := lval_copy kv.2]> t) table (zip names vals) !! k = Some v.
Proof.
  induction names as [|n names IH]; intros vals table i k v Hnd Hk Hv; [discriminate Hk|].
  destruct vals as [|w vals]; [discriminate Hv|].
  apply NoDup_cons in Hnd as [Hn Hnd].
  destruct i as [|i]; simpl in Hk, Hv |- *.
  - injection Hk as ->. injection Hv as ->.
    rewrite foldl_insert_other by exact Hn.
    rewrite lookup_insert_eq, EvalFacts.lval_copy_id. reflexivity.
  - eapply IH; eassumption.
Qed.

(** X8.  In a scope that is not read-only, [def] with a list of distinct
    names and as many values returns the empty S-expression and leaves a
    scope in which every name resolves to its value and every other symbol
    resolves as before; the parent link is untouched. *)
Theorem def_binds_each_name_to_its_value (parent : option lenv) (table : gmap string lval)
    (symbol : string) (names : list string) (vals : list lval) :
  NoDup names -> length names = length vals ->
  exists table',
    builtin_def (Some (Lenv parent table false)) symbol (LQexpr (map LSymbol names) :: vals)
    = Ret (LSexpr [], Some (Lenv parent table' false))
    /\ (forall i k v, names !! i = Some k -> vals !! i = Some v ->
          lenv_get (Some (Lenv parent table' false)) k = Ret v)
    /\ (forall k, k ∉ names ->
          lenv_get (Some (Lenv parent table' false)) k
          = lenv_get (Some (Lenv parent table false)) k).
Proof.
  intros Hnd Hlen.
  exists (foldl (fun t kv => <[kv.1 := lval_copy kv.2]> t) table (zip names vals)).
  split; [|split].
  - unfold builtin_def.
    cbn [expr_item lookup list_lookup mbind outcome_bind type_of expr_cells].
    rewrite bool_decide_eq_true_2 by reflexivity. cbn [negb].
    rewrite check_all_symbols_names.
    rewrite length_map. cbn [length]. rewrite Hlen.
    replace (Z.of_nat (length vals) =? Z.of_nat (S (length vals)) - 1) with true
      by (symmetry; apply Z.eqb_eq; lia).
    cbn [negb].
    rewrite (def_loop_not_read_only parent (LQexpr (map LSymbol names)) vals names vals 0 table
               eq_refl Hlen).
    reflexivity.
  - intros i k v Hk Hv. simpl.
    rewrite (foldl_insert_bound names vals table i k v Hnd Hk Hv).
    rewrite EvalFacts.lval_copy_id. reflexivity.
  - intros k Hk. simpl. rewrite foldl_insert_other by exact Hk. reflexivity.
Qed.

Lemma def_binds_each_name_to_its_value_witness :
  exists table',
    builtin_def (Some (Lenv None ∅ false)) "def" (LQexpr (map LSymbol ["a"; "b"]) :: [LLong 1; LLong 2])
    = Ret (LSexpr [], Some (Lenv None table' false))
    /\ (forall i k v, ["a"; "b"] !! i = Some k -> [LLong 1; LLong 2] !! i = Some v ->
          lenv_get (Some (Lenv None table' false)) k = Ret v)
    /\ (forall k, k ∉ ["a"; "b"] ->
          lenv_get (Some (Lenv None table' false)) k = lenv_get (Some (Lenv None ∅ false)) k).
Proof.
  apply (def_binds_each_name_to_its_value None ∅ "def" ["a"; "b"] [LLong 1; LLong 2]).
  - apply NoDup_cons. split; [|apply NoDup_singleton].
    intros Hin. apply list_elem_of_singleton in Hin. discriminate Hin.
  - reflexivity.
Defined.

(** X9.  [def] is not atomic.  In a read-only scope that binds [s2] and
    not [s1], [def] of the two names binds [s1] and then is refused for
    [s2]: the result is the error naming [s2], and in the scope it leaves
    [s1] is bound to its value. *)
Theorem def_binds_names_before_the_refused_one (parent : option lenv) (table : gmap string lval)
    (symbol s1 s2 : string) (v1 v2 : lval) :
  table !! s1 = None -> is_Some (table !! s2) ->
  builtin_def (Some (Lenv parent table true)) symbol [LQexpr [LSymbol s1; LSymbol s2]; v1; v2]
  = Ret (lval_error ("function '" +:+ s2 +:+ "' is a built-in"),
         Some (Lenv parent (<[s1 := lval_copy v1]> table) true))
  /\ lenv_get (Some (Lenv parent (<[s1 := lval_copy v1]> table) true)) s1 = Ret v1.
Proof.
  intros H1 H2. split.
  - assert (Hne : s1 <> s2) by (intros ->; rewrite H1 in H2; destruct H2; discriminate).
    unfold builtin_def. simpl. rewrite H1. simpl.
    rewrite lookup_insert_ne by exact Hne.
    rewrite bool_decide_eq_true_2 by exact H2. reflexivity.
  - simpl. rewrite lookup_insert_eq, !EvalFacts.lval_copy_id. reflexivity.
Qed.

Lemma def_binds_names_before_the_refused_one_witness :
  builtin_def (Some root_env) "def" [LQexpr [LSymbol "a"; LSymbol "+"]; LLong 1; LLong 2]
  = Ret (LError "function '+' is a built-in",
         Some (Lenv None (<["a" := LLong 1]> (lenv_table root_env)) true)).
Proof.
  destruct (def_binds_names_before_the_refused_one None (lenv_table root_env) "def" "a" "+"
              (LLong 1) (LLong 2)) as [H _].
  - vm_compute. reflexivity.
  - vm_compute. eexists. reflexivity.
  - exact H.
Defined.

(** X10.  [def] checks its bundle before it binds anything, and a check
    that fails leaves the environment as it was: a first argument that is
    not a Q-expression, a name list that holds something other than
    symbols (the error is for the first such cell), a number of names
    different from the number of values. *)
Theorem def_checks_leave_environment_unchanged (e : lenv) (symbol : string) :
  (forall v0 rest, type_of v0 <> LVAL_QEXPRESSION ->
     builtin_def (Some e) symbol (v0 :: rest)
     = Ret (err_type_arg symbol LVAL_QEXPRESSION (type_of v0), Some e))
  /\ (forall pre s post vals,
        Forall (fun w => type_of w = LVAL_SYMBOL) pre -> type_of s <> LVAL_SYMBOL ->
        builtin_def (Some e) symbol (LQexpr (pre ++ s :: post) :: vals)
        = Ret (err_type_arg symbol LVAL_SYMBOL (type_of s), Some e))
  /\ (forall names vals, length names <> length vals ->
        builtin_def (Some e) symbol (LQexpr (map LSymbol names) :: vals)
        = Ret (lval_error ("function '" +:+ symbol +:+ "' argument mismatch - "
                           +:+ pretty (Z.of_nat (length names)) +:+ " symbols, "
                           +:+ pretty (Z.of_nat (length vals)) +:+ " values"), Some e)).
Proof.
  split; [|split].
  - intros v0 rest Hv. unfold builtin_def.
    cbn [expr_item lookup list_lookup mbind outcome_bind].
    rewrite bool_decide_eq_false_2 by exact Hv. reflexivity.
  - intros pre s post vals Hpre Hs. unfold builtin_def.
    cbn [expr_item lookup list_lookup mbind outcome_bind type_of expr_cells].
    rewrite bool_decide_eq_true_2 by reflexivity. cbn [negb].
    rewrite (check_all_symbols_first symbol pre s post Hpre Hs). reflexivity.
  - intros names vals Hlen. unfold builtin_def.
    cbn [expr_item lookup list_lookup mbind outcome_bind type_of expr_cells].
    rewrite bool_decide_eq_true_2 by reflexivity. cbn [negb].
    rewrite check_all_symbols_names. rewrite length_map. cbn [length].
    replace (Z.of_nat (S (length vals)) - 1) with (Z.of_nat (length vals)) by lia.
    replace (Z.of_nat (length names) =? Z.of_nat (length vals)) with false
      by (symmetry; apply Z.eqb_neq; lia).
    reflexivity.
Qed.

Lemma def_checks_leave_environment_unchanged_witness :
  builtin_def (Some top_env) "def" [LLong 1; LLong 2]
  = Ret (LError "function 'def' type mismatch - expected Q-Expression, received Number", Some top_env)
  /\ builtin_def (Some top_env) "def" [LQexpr ([LSymbol "a"] ++ LLong 7 :: []); LLong 1; LLong 2]
     = Ret (LError "function 'def' type mismatch - expected Symbol, received Number", Some top_env)
  /\ builtin_def (Some top_env) "def" [LQexpr (map LSymbol ["a"; "b"]); LLong 1]
     = Ret (LError "function 'def' argument mismatch - 2 symbols, 1 values", Some top_env).
Proof.
  destruct (def_checks_leave_environment_unchanged top_env "def") as (H1 & H2 & H3).
  split; [|split].
  - apply (H1 (LLong 1) [LLong 2]). discriminate.
  - apply (H2 [LSymbol "a"] (LLong 7) [] [LLong 1; LLong 2]).
    + repeat constructor.
    + discriminate.
  - apply (H3 ["a"; "b"] [LLong 1]). discriminate.
Defined.

(** ** The evaluator *)

Lemma lval_eval_sexpr_step (M : libm) (fuel : nat) (env : option lenv) (cells : list lval) :
  lval_eval M (S fuel) env (LSexpr cells) = lval_eval_sexpr M (lval_eval M fuel) env cells.
Proof. reflexivity. Qed.

(** X11.  An S-expression with a single child evaluates as the child:
    the same result and the same environment, whatever the child
    evaluates to (an error included) and also when its evaluation has no
    result. *)
Theorem single_child_evaluates_as_child (M : libm) (fuel : nat) (env : option lenv) (c : lval) :
  lval_eval M (S fuel) env (LSexpr [c]) = lval_eval M fuel env c.
Proof.
  rewrite lval_eval_sexpr_step. unfold lval_eval_sexpr. cbn [eval_children].
  destruct (lval_eval M fuel env c) as [[c' env1]| |]; [|reflexivity|reflexivity].
  cbn [mbind outcome_bind first_error].
  destruct (bool_decide (type_of c' = LVAL_ERROR)); reflexivity.
Qed.

(** X12.  Through the evaluator: in a scope that is not read-only and in
    which the symbol [d] resolves to the builtin [def], evaluating
    [(d {k} v)] for a value [v] that evaluates to itself and is not an
    error returns the empty S-expression, and in the scope it leaves the
    symbol [k] evaluates to [v]. *)
Theorem def_then_symbol_evaluates_to_value (M : libm) (fuel : nat)
    (parent : option lenv) (table : gmap string lval) (d s k : string) (v : lval) :
  lenv_get (Some (Lenv parent table false)) d = Ret (LBuiltin s Fn_def) ->
  self_evaluating v = true -> is_error v = false ->
  lval_eval M (S (S fuel)) (Some (Lenv parent table false))
    (LSexpr [LSymbol d; LQexpr [LSymbol k]; v])
  = Ret (LSexpr [], Some (Lenv parent (<[k := v]> table) false))
  /\ lval_eval M (S fuel) (Some (Lenv parent (<[k := v]> table) false)) (LSymbol k)
     = Ret (v, Some (Lenv parent (<[k := v]> table) false)).
Proof.
  intros Hd Hself Herr. split.
  - set (e := Some (Lenv parent table false)) in *.
    assert (Hsym : lval_eval M (S fuel) e (LSymbol d) = Ret (LBuiltin s Fn_def, e)).
    { cbn [lval_eval]. rewrite Hd. reflexivity. }
    assert (Hq : lval_eval M (S fuel) e (LQexpr [LSymbol k]) = Ret (LQexpr [LSymbol k], e))
      by reflexivity.
    assert (Hv : lval_eval M (S fuel) e v = Ret (v, e)).
    { destruct v; try discriminate Hself; reflexivity. }
    rewrite lval_eval_sexpr_step. unfold lval_eval_sexpr. cbn [eval_children].
    rewrite Hsym. cbn [mbind outcome_bind]. rewrite Hq. cbn [mbind outcome_bind].
    rewrite Hv. cbn [mbind outcome_bind first_error type_of].
    rewrite !bool_decide_eq_false_2 by discriminate.
    unfold is_error in Herr. rewrite Herr. cbn [fmap option_fmap option_map].
    subst e. simpl. rewrite EvalFacts.lval_copy_id. reflexivity.
  - simpl. rewrite lookup_insert_eq, EvalFacts.lval_copy_id. reflexivity.
Qed.

Lemma def_then_symbol_evaluates_to_value_witness :
  lval_eval libm_unused 2 (Some top_env) (LSexpr [LSymbol "def"; LQexpr [LSymbol "x"]; LQexpr [LLong 1]])
  = Ret (LSexpr [], Some (Lenv (Some root_env) (<["x" := LQexpr [LLong 1]]> ∅) false))
  /\ lval_eval libm_unused 1 (Some (Lenv (Some root_env) (<["x" := LQexpr [LLong 1]]> ∅) false))
       (LSymbol "x")
     = Ret (LQexpr [LLong 1], Some (Lenv (Some root_env) (<["x" := LQexpr [LLong 1]]> ∅) false)).
Proof.
  apply (def_then_symbol_evaluates_to_value libm_unused 0 (Some root_env) ∅ "def" "def" "x"
           (LQexpr [LLong 1])); vm_compute; reflexivity.
Defined.

End DefFacts.

(** ** [lval.c]: cells by index, error messages, equality *)

Lemma expr_item_loop_lookup : forall (ptr : list lval) (c i : nat),
  expr_item_loop ptr c (c + i) = ptr !! i.
Proof.
  induction ptr as [|d ptr IH]; intros c i; [reflexivity|].
  simpl. destruct i as [|i].
  - rewrite Nat.add_0_r, Nat.eqb_refl. reflexivity.
  - replace (c =? c + S i)%nat with false by (symmetry; apply Nat.eqb_neq; lia).
    replace (c + S i)%nat with (S c + i)%nat by lia. apply IH.
Qed.

Lemma pop_and_delete_drop : forall (n : nat) (val : list lval),
  (n <= length val)%nat -> pop_and_delete n val = Ret (drop n val).
Proof.
  induction n as [|n IH]; intros val Hn; [reflexivity|].
  destruct val as [|d val]; [simpl in Hn; lia|].
  simpl. apply IH. simpl in Hn. lia.
Qed.

Lemma pop_and_delete_short : forall (n : nat) (val : list lval),
  (length val < n)%nat -> pop_and_delete n val = Undef.
Proof.
  induction n as [|n IH]; intros val Hn; [lia|].
  destruct val as [|d val]; [reflexivity|].
  simpl. apply IH. simpl in Hn. lia.
Qed.

(** X13.  Access by index in [lval.c].  [lval_expr_item] returns the
    cell at the index and the null pointer when the index is not below
    the number of cells.  [lval_take] returns the same cell for an index
    below the number of cells; for any other index it pops from a list
    that has run empty, which reads through a null pointer. *)
Theorem cells_by_index (val : list lval) (i : nat) :
  lval_expr_item val i = val !! i
  /\ (forall x, val !! i = Some x -> lval_take val i = Ret x)
  /\ ((length val <= i)%nat -> lval_expr_item val i = None /\ lval_take val i = Undef).
Proof.
  assert (Hitem : lval_expr_item val i = val !! i)
    by apply (expr_item_loop_lookup val 0 i).
  split; [exact Hitem|]. split.
  - intros x Hx. unfold lval_take.
    rewrite pop_and_delete_drop by (apply lookup_lt_Some in Hx; lia).
    rewrite (drop_S _ _ _ Hx). reflexivity.
  - intros Hlen. split.
    + rewrite Hitem. apply lookup_ge_None. exact Hlen.
    + unfold lval_take. destruct (decide (length val = i)) as [Heq|Hne].
      * rewrite pop_and_delete_drop by lia. rewrite drop_ge by lia. reflexivity.
      * rewrite pop_and_delete_short by lia. reflexivity.
Qed.

Lemma cells_by_index_witness :
  lval_take [LLong 1; LLong 2; LLong 3] 1 = Ret (LLong 2)
  /\ lval_expr_item [LLong 1] 4 = None /\ lval_take [LLong 1] 4 = Undef.
Proof.
  destruct (cells_by_index [LLong 1; LLong 2; LLong 3] 1) as (_ & Htake & _).
  destruct (cells_by_index [LLong 1] 4) as (_ & _ & Hout).
  split; [apply Htake; reflexivity | apply Hout; simpl; lia].
Defined.

Lemma length_substring_le : forall (s : string) (n : nat),
  (String.length (substring 0 n s) <= n)%nat.
Proof.
  induction s as [|c s IH]; intros n.
  - destruct n; simpl; lia.
  - destruct n as [|n]; simpl; [lia|]. specialize (IH n). lia.
Qed.

Lemma substring_all : forall (s : string) (n : nat),
  (String.length s <= n)%nat -> substring 0 n s = s.
Proof.
  induction s as [|c s IH]; intros n Hn.
  - destruct n; reflexivity.
  - destruct n as [|n]; simpl in Hn |- *; [lia|]. rewrite IH by lia. reflexivity.
Qed.

(** X14.  The message of an error made by [lval_error] never has more
    than 510 characters, and a formatted text of at most 510 characters
    is the message as it is. *)
Theorem lval_error_message_is_bounded (formatted : string) :
  (exists msg, lval_error formatted = LError msg /\ (String.length msg <= 510)%nat)
  /\ ((String.length formatted <= 510)%nat -> lval_error formatted = LError formatted).
Proof.
  split.
  - eexists. split; [reflexivity|]. apply length_substring_le.
  - intros Hlen. unfold lval_error. rewrite substring_all by exact Hlen. reflexivity.
Qed.

Lemma lval_error_message_is_bounded_witness :
  lval_error "divide by zero" = LError "divide by zero".
Proof.
  destruct (lval_error_message_is_bounded "divide by zero") as [_ Hshort].
  apply Hshort. simpl. lia.
Defined.

(** X15.  [lval_is_equal] answers [true] for a value compared with
    itself, provided no Decimal inside it is a not-a-number (a
    not-a-number is not equal to itself). *)
Theorem lval_is_equal_reflexive_without_nan : forall x,
  no_nan x = true -> lval_is_equal x x = true.
Proof.
  fix IH 1. intros x Hx.
  destruct x as [n|d|b|s|s|s|s f|e f b|cells|cells]; cbn [lval_is_equal type_of];
    rewrite bool_decide_eq_true_2 by reflexivity; cbn [negb].
  - apply Z.eqb_refl.
  - exact Hx.
  - destruct b; reflexivity.
  - apply String.eqb_refl.
  - apply String.eqb_refl.
  - apply String.eqb_refl.
  - apply bool_decide_eq_true_2. reflexivity.
  - cbn [no_nan] in Hx. apply andb_true_iff in Hx as [Hf Hb].
    rewrite (IH f Hf), (IH b Hb). reflexivity.
  - rewrite Nat.eqb_refl. cbn [negb]. cbn [no_nan] in Hx.
    induction cells as [|c cells IHc]; [reflexivity|].
    cbn [forallb] in Hx. apply andb_true_iff in Hx as [Hc Hcells].
    rewrite (IH c Hc). apply IHc. exact Hcells.
  - rewrite Nat.eqb_refl. cbn [negb]. cbn [no_nan] in Hx.
    induction cells as [|c cells IHc]; [reflexivity|].
    cbn [forallb] in Hx. apply andb_true_iff in Hx as [Hc Hcells].
    rewrite (IH c Hc). apply IHc. exact Hcells.
Qed.

Lemma lval_is_equal_reflexive_without_nan_witness :
  lval_is_equal (LQexpr [LLong 1; LDouble (double_of_long 2); LString "a"])
                (LQexpr [LLong 1; LDouble (double_of_long 2); LString "a"]) = true.
Proof. apply lval_is_equal_reflexive_without_nan. reflexivity. Defined.

(** ** Arithmetic over a bundle *)

Lemma wrap_long_range z : in_long_range (wrap_long z).
Proof.
  unfold in_long_range, wrap_long, LONG_MIN, LONG_MAX.
  pose proof (Z.mod_pos_bound (z + 2 ^ 63) (2 ^ 64) ltac:(lia)). lia.
Qed.

Lemma wrap_long_id z : in_long_range z -> wrap_long z = z.
Proof.
  unfold in_long_range, wrap_long, LONG_MIN, LONG_MAX. intros Hz.
  rewrite Z.mod_small by lia. lia.
Qed.

Lemma wrap_long_congr x y : x mod 2 ^ 64 = y mod 2 ^ 64 -> wrap_long x = wrap_long y.
Proof.
  intros H. unfold wrap_long. f_equal.
  rewrite <- (Zplus_mod_idemp_l x), <- (Zplus_mod_idemp_l y), H. reflexivity.
Qed.

Lemma wrap_long_mod z : wrap_long z mod 2 ^ 64 = z mod 2 ^ 64.
Proof.
  unfold wrap_long.
  rewrite Zminus_mod_idemp_l.
  replace (z + 2 ^ 63 - 2 ^ 63) with z by lia. reflexivity.
Qed.

Lemma wrap_long_add_l a b : wrap_long (wrap_long a + b) = wrap_long (a + b).
Proof.
  apply wrap_long_congr.
  rewrite <- Zplus_mod_idemp_l, wrap_long_mod, Zplus_mod_idemp_l. reflexivity.
Qed.

Lemma wrap_long_mul_l a b : wrap_long (wrap_long a * b) = wrap_long (a * b).
Proof.
  apply wrap_long_congr.
  rewrite <- Zmult_mod_idemp_l, wrap_long_mod, Zmult_mod_idemp_l. reflexivity.
Qed.

Section folds_on_longs.
Context {iops_enum : Type}.
Variable do_calc : iops_enum -> lval -> lval -> outcome lval.
Variable is_SUB : iops_enum -> bool.
Variable iop : iops_enum.
Variable f : Z -> Z -> Z.
Hypothesis calc_longs : forall a b, do_calc iop (LLong a) (LLong b) = Ret (LLong (f a b)).
Hypothesis not_SUB : is_SUB iop = false.

Lemma calc_loop_longs : forall ns n,
  calc_loop do_calc iop (LLong n) (map LLong ns) = Ret (LLong (foldl f n ns)).
Proof.
  induction ns as [|m ns IH]; intros n; [reflexivity|].
  simpl. rewrite calc_longs. simpl. apply IH.
Qed.

Lemma check_numeric_longs symbol ns : check_numeric symbol (map LLong ns) = None.
Proof. induction ns as [|m ns IH]; simpl; [reflexivity | exact IH]. Qed.

Lemma builtin_op_body_longs {E : Type} (e : E) symbol n ns :
  builtin_op_body do_calc is_SUB (Some e) symbol (map LLong (n :: ns)) iop
  = Ret (LLong (foldl f n ns)).
Proof.
  unfold builtin_op_body. rewrite check_numeric_longs.
  cbn [map lval_pop_head mbind outcome_bind]. rewrite not_SUB, andb_false_r.
  cbn [mbind outcome_bind]. apply calc_loop_longs.
Qed.

End folds_on_longs.

Lemma foldl_wrapped_add : forall ns n,
  foldl (fun a b => wrap_long (a + b)) (wrap_long n) ns = wrap_long (foldl Z.add n ns).
Proof.
  induction ns as [|m ns IH]; intros n; [reflexivity|].
  simpl. rewrite wrap_long_add_l. apply IH.
Qed.

Lemma foldl_wrapped_mul : forall ns n,
  foldl (fun a b => wrap_long (a * b)) (wrap_long n) ns = wrap_long (foldl Z.mul n ns).
Proof.
  induction ns as [|m ns IH]; intros n; [reflexivity|].
  simpl. rewrite wrap_long_mul_l. apply IH.
Qed.

(** X16.  On a bundle of Integers, [+] returns the Integer that is the
    sum of all operands and [*] the Integer that is their product, each
    reduced to the 64-bit range by wrap-around: wrapping after every step
    is wrapping once at the end.  The result lies in the range of a
    long. *)
Theorem integer_sum_and_product_wrap_once (M : libm) {E : Type} (e : E) (symbol : string)
    (n : Z) (ns : list Z) :
  in_long_range n ->
  Sums.builtin_op M (Some e) (map LLong (n :: ns)) symbol Sums.IOPSENUM_ADD
  = Ret (LLong (wrap_long (foldl Z.add n ns)))
  /\ Eval.builtin_op M (Some e) symbol (map LLong (n :: ns)) Eval.IOPSENUM_ADD
     = Ret (LLong (wrap_long (foldl Z.add n ns)))
  /\ Sums.builtin_op M (Some e) (map LLong (n :: ns)) symbol Sums.IOPSENUM_MUL
     = Ret (LLong (wrap_long (foldl Z.mul n ns)))
  /\ Eval.builtin_op M (Some e) symbol (map LLong (n :: ns)) Eval.IOPSENUM_MUL
     = Ret (LLong (wrap_long (foldl Z.mul n ns)))
  /\ in_long_range (wrap_long (foldl Z.add n ns))
  /\ in_long_range (wrap_long (foldl Z.mul n ns)).
Proof.
  intros Hn.
  rewrite <- foldl_wrapped_add, <- foldl_wrapped_mul, (wrap_long_id n Hn).
  split; [|split; [|split; [|split; [|split]]]].
  - apply (builtin_op_body_longs (Sums.do_calc M) Sums.is_SUB Sums.IOPSENUM_ADD
             (fun a b => wrap_long (a + b))); reflexivity.
  - apply (builtin_op_body_longs (Eval.do_calc M) Eval.is_SUB Eval.IOPSENUM_ADD
             (fun a b => wrap_long (a + b))); reflexivity.
  - apply (builtin_op_body_longs (Sums.do_calc M) Sums.is_SUB Sums.IOPSENUM_MUL
             (fun a b => wrap_long (a * b))); reflexivity.
  - apply (builtin_op_body_longs (Eval.do_calc M) Eval.is_SUB Eval.IOPSENUM_MUL
             (fun a b => wrap_long (a * b))); reflexivity.
  - rewrite <- (wrap_long_id n Hn) at 1. rewrite foldl_wrapped_add. apply wrap_long_range.
  - rewrite <- (wrap_long_id n Hn) at 1. rewrite foldl_wrapped_mul. apply wrap_long_range.
Qed.

Lemma integer_sum_and_product_wrap_once_witness :
  Sums.builtin_op libm_unused (Some tt) (map LLong (LONG_MAX :: [1; 5])) "+" Sums.IOPSENUM_ADD
  = Ret (LLong (LONG_MIN + 5)).
Proof.
  destruct (integer_sum_and_product_wrap_once libm_unused tt "+" LONG_MAX [1; 5]) as [H _].
  - unfold in_long_range, LONG_MIN, LONG_MAX. lia.
  - rewrite H. reflexivity.
Defined.

Lemma foldl_max_spec : forall ns n,
  foldl Z.max n ns ∈ n :: ns /\ Forall (fun z => z <= foldl Z.max n ns) (n :: ns).
Proof.
  induction ns as [|m ns IH]; intros n.
  - split; [apply list_elem_of_here | constructor; [simpl; lia | constructor]].
  - simpl. destruct (IH (Z.max n m)) as [Hin Hall].
    apply Forall_cons in Hall as [Hhead Hall]. split.
    + apply elem_of_cons in Hin as [Heq | Hin].
      * rewrite Heq. destruct (Z.max_spec n m) as [[_ ->] | [_ ->]].
        -- apply list_elem_of_further, list_elem_of_here.
        -- apply list_elem_of_here.
      * apply list_elem_of_further, list_elem_of_further. exact Hin.
    + constructor; [lia|]. constructor; [lia | exact Hall].
Qed.

Lemma foldl_min_spec : forall ns n,
  foldl Z.min n ns ∈ n :: ns /\ Forall (fun z => foldl Z.min n ns <= z) (n :: ns).
Proof.
  induction ns as [|m ns IH]; intros n.
  - split; [apply list_elem_of_here | constructor; [simpl; lia | constructor]].
  - simpl. destruct (IH (Z.min n m)) as [Hin Hall].
    apply Forall_cons in Hall as [Hhead Hall]. split.
    + apply elem_of_cons in Hin as [Heq | Hin].
      * rewrite Heq. destruct (Z.min_spec n m) as [[_ ->] | [_ ->]].
        -- apply list_elem_of_here.
        -- apply list_elem_of_further, list_elem_of_here.
      * apply list_elem_of_further, list_elem_of_further. exact Hin.
    + constructor; [lia|]. constructor; [lia | exact Hall].
Qed.

Lemma max_l_is_max a b : max_l a b = Ret (LLong (Z.max a b)).
Proof.
  unfold max_l, lval_long. do 2 f_equal.
  destruct (Z.gtb_spec a b); [rewrite Z.max_l | rewrite Z.max_r]; lia.
Qed.

Lemma min_l_is_min a b : min_l a b = Ret (LLong (Z.min a b)).
Proof.
  unfold min_l, lval_long. do 2 f_equal.
  destruct (Z.ltb_spec a b); [rewrite Z.min_l | rewrite Z.min_r]; lia.
Qed.

(** X17.  On a bundle of Integers, [max] returns one of the operands
    that no operand exceeds, and [min] one of the operands that exceeds no
    operand, in both units. *)
Theorem integer_max_and_min_of_bundle (M : libm) {E : Type} (e : E) (symbol : string)
    (n : Z) (ns : list Z) :
  (exists m,
      Sums.builtin_op M (Some e) (map LLong (n :: ns)) symbol Sums.IOPSENUM_MAX = Ret (LLong m)
      /\ Eval.builtin_op M (Some e) symbol (map LLong (n :: ns)) Eval.IOPSENUM_MAX = Ret (LLong m)
      /\ m ∈ n :: ns /\ Forall (fun z => z <= m) (n :: ns))
  /\ (exists m,
         Sums.builtin_op M (Some e) (map LLong (n :: ns)) symbol Sums.IOPSENUM_MIN = Ret (LLong m)
         /\ Eval.builtin_op M (Some e) symbol (map LLong (n :: ns)) Eval.IOPSENUM_MIN = Ret (LLong m)
         /\ m ∈ n :: ns /\ Forall (fun z => m <= z) (n :: ns)).
Proof.
  split.
  - exists (foldl Z.max n ns). split; [|split].
    + apply (builtin_op_body_longs (Sums.do_calc M) Sums.is_SUB Sums.IOPSENUM_MAX Z.max);
        [apply max_l_is_max | reflexivity].
    + apply (builtin_op_body_longs (Eval.do_calc M) Eval.is_SUB Eval.IOPSENUM_MAX Z.max);
        [apply max_l_is_max | reflexivity].
    + apply foldl_max_spec.
  - exists (foldl Z.min n ns). split; [|split].
    + apply (builtin_op_body_longs (Sums.do_calc M) Sums.is_SUB Sums.IOPSENUM_MIN Z.min);
        [apply min_l_is_min | reflexivity].
    + apply (builtin_op_body_longs (Eval.do_calc M) Eval.is_SUB Eval.IOPSENUM_MIN Z.min);
        [apply min_l_is_min | reflexivity].
    + apply foldl_min_spec.
Qed.

(** X18.  Unary minus on an Integer of the long range returns an Integer
    of the range whose own negation is the operand again; the result is
    the arithmetic negation except for [LONG_MIN], which is returned
    unchanged. *)
Theorem integer_negation_is_an_involution (M : libm) {E : Type} (e : E) (symbol : string) (n : Z) :
  in_long_range n ->
  exists m,
    Sums.builtin_op M (Some e) [LLong n] symbol Sums.IOPSENUM_SUB = Ret (LLong m)
    /\ Eval.builtin_op M (Some e) symbol [LLong n] Eval.IOPSENUM_SUB = Ret (LLong m)
    /\ in_long_range m
    /\ Sums.builtin_op M (Some e) [LLong m] symbol Sums.IOPSENUM_SUB = Ret (LLong n)
    /\ (n <> LONG_MIN -> m = - n)
    /\ (n = LONG_MIN -> m = LONG_MIN).
Proof.
  intros Hn. exists (wrap_long (- n)).
  assert (Hcases : (n <> LONG_MIN -> wrap_long (- n) = - n)
                   /\ (n = LONG_MIN -> wrap_long (- n) = LONG_MIN)).
  { unfold in_long_range, LONG_MIN, LONG_MAX in *. split.
    - intros Hne. apply wrap_long_id. unfold in_long_range, LONG_MIN, LONG_MAX. lia.
    - intros ->. reflexivity. }
  destruct Hcases as [Hne Heq].
  split; [reflexivity|]. split; [reflexivity|]. split; [apply wrap_long_range|].
  split; [|split; assumption].
  change (Sums.builtin_op M (Some e) [LLong (wrap_long (- n))] symbol Sums.IOPSENUM_SUB)
    with (Ret (LLong (wrap_long (- wrap_long (- n))))).
  do 2 f_equal.
  destruct (Z.eq_dec n LONG_MIN) as [->|Hn'].
  - reflexivity.
  - rewrite (Hne Hn'), Z.opp_involutive. apply wrap_long_id. exact Hn.
Qed.

Lemma integer_negation_is_an_involution_witness :
  exists m,
    Sums.builtin_op libm_unused (Some tt) [LLong 5] "-" Sums.IOPSENUM_SUB = Ret (LLong m)
    /\ Eval.builtin_op libm_unused (Some tt) "-" [LLong 5] Eval.IOPSENUM_SUB = Ret (LLong m)
    /\ in_long_range m
    /\ Sums.builtin_op libm_unused (Some tt) [LLong m] "-" Sums.IOPSENUM_SUB = Ret (LLong 5)
    /\ (5 <> LONG_MIN -> m = - 5)
    /\ (5 = LONG_MIN -> m = LONG_MIN).
Proof.
  apply (integer_negation_is_an_involution libm_unused tt "-" 5).
  unfold in_long_range, LONG_MIN, LONG_MAX. lia.
Defined.

(** ** Promotion over a bundle *)

Section kind_of_fold.
Context {iops_enum : Type}.
Variable do_calc : iops_enum -> lval -> lval -> outcome lval.
Variable is_SUB : iops_enum -> bool.
Variable iop : iops_enum.
Hypothesis calc_kind : forall x y,
  is_numeric x = true -> is_numeric y = true ->
  exists v, do_calc iop x y = Ret v /\ is_numeric v = true
            /\ is_long v = is_long x && is_long y.

Lemma calc_loop_kind : forall rest x,
  is_numeric x = true -> Forall (fun v => is_numeric v = true) rest ->
  exists v, calc_loop do_calc iop x rest = Ret v /\ is_numeric v = true
            /\ is_long v = is_long x && forallb is_long rest.
Proof.
  induction rest as [|y rest IH]; intros x Hx Hrest.
  - exists x. split; [reflexivity|]. split; [exact Hx|]. simpl. rewrite andb_true_r. reflexivity.
  - apply Forall_cons in Hrest as [Hy Hrest].
    destruct (calc_kind x y Hx Hy) as (v & Hv & Hnum & Hkind).
    destruct (IH v Hnum Hrest) as (w & Hw & Hwnum & Hwkind).
    exists w. simpl. rewrite Hv. simpl. split; [exact Hw|]. split; [exact Hwnum|].
    rewrite Hwkind, Hkind, andb_assoc. reflexivity.
Qed.

Lemma builtin_op_body_kind {E : Type} (e : E) symbol x rest :
  Forall (fun v => is_numeric v = true) (x :: rest) ->
  exists v, builtin_op_body do_calc is_SUB (Some e) symbol (x :: rest) iop = Ret v
            /\ is_numeric v = true /\ is_long v = forallb is_long (x :: rest).
Proof.
  intros Hall. pose proof Hall as Hall'. apply Forall_cons in Hall' as [Hx Hrest].
  unfold builtin_op_body. rewrite check_numeric_all by exact Hall.
  cbn [lval_pop_head mbind outcome_bind].
  destruct ((length rest =? 0)%nat && is_SUB iop) eqn:Hneg.
  - apply andb_true_iff in Hneg as [Hlen _]. apply Nat.eqb_eq in Hlen.
    destruct rest; [|discriminate Hlen].
    destruct x; try discriminate Hx; eexists; (split; [reflexivity|]); split; reflexivity.
  - cbn [mbind outcome_bind]. apply calc_loop_kind; assumption.
Qed.

End kind_of_fold.

Lemma sums_calc_kind (M : libm) (iop : Sums.iops_enum) (x y : lval) :
  sums_number_op iop = true -> is_numeric x = true -> is_numeric y = true ->
  exists v, Sums.do_calc M iop x y = Ret v /\ is_numeric v = true
            /\ is_long v = is_long x && is_long y.
Proof.
  intros Hop Hx Hy.
  destruct x; try discriminate Hx; destruct y; try discriminate Hy;
    destruct iop; try discriminate Hop; eexists; (split; [reflexivity|]); split; reflexivity.
Qed.

Lemma eval_calc_kind (M : libm) (iop : Eval.iops_enum) (x y : lval) :
  eval_number_op iop = true -> is_numeric x = true -> is_numeric y = true ->
  exists v, Eval.do_calc M iop x y = Ret v /\ is_numeric v = true
            /\ is_long v = is_long x && is_long y.
Proof.
  intros Hop Hx Hy.
  destruct x; try discriminate Hx; destruct y; try discriminate Hy;
    destruct iop; try discriminate Hop; eexists; (split; [reflexivity|]); split; reflexivity.
Qed.

(** X19.  Promotion holds over the whole bundle.  For addition,
    subtraction, multiplication, maximum and minimum on a bundle of
    numbers, [builtin_op] returns a number, and that number is an Integer
    exactly when every operand is an Integer: one Decimal anywhere makes
    the result a Decimal. *)
Theorem result_is_integer_iff_all_operands_are (M : libm) {E : Type} (e : E) (symbol : string)
    (x : lval) (rest : list lval) :
  Forall (fun v => is_numeric v = true) (x :: rest) ->
  (forall iop, sums_number_op iop = true ->
     exists v, Sums.builtin_op M (Some e) (x :: rest) symbol iop = Ret v
               /\ is_numeric v = true /\ is_long v = forallb is_long (x :: rest))
  /\ (forall iop, eval_number_op iop = true ->
        exists v, Eval.builtin_op M (Some e) symbol (x :: rest) iop = Ret v
                  /\ is_numeric v = true /\ is_long v = forallb is_long (x :: rest)).
Proof.
  intros Hall. split; intros iop Hop.
  - apply builtin_op_body_kind; [|exact Hall].
    intros a b. apply sums_calc_kind. exact Hop.
  - apply builtin_op_body_kind; [|exact Hall].
    intros a b. apply eval_calc_kind. exact Hop.
Qed.

Lemma result_is_integer_iff_all_operands_are_witness :
  exists v, Sums.builtin_op libm_unused (Some tt) [LLong 1; LDouble (double_of_long 2); LLong 3]
              "*" Sums.IOPSENUM_MUL = Ret v
            /\ is_numeric v = true
            /\ is_long v = forallb is_long [LLong 1; LDouble (double_of_long 2); LLong 3].
Proof.
  destruct (result_is_integer_iff_all_operands_are libm_unused tt "*"
              (LLong 1) [LDouble (double_of_long 2); LLong 3]) as [HS _].
  - repeat constructor.
  - apply (HS Sums.IOPSENUM_MUL). reflexivity.
Defined.

(** ** Comparisons *)

(** X20.  The comparison builtins of the arithmetic unit compare two
    numbers: on a bundle of two numbers, of either kind, the result is a
    Boolean.  On a single number the result is that number, not a
    Boolean. *)
Theorem comparisons_take_two_numbers (M : libm) {E : Type} (e : E) (symbol : string)
    (iop : Sums.iops_enum) (x y : lval) :
  In iop [Sums.IOPSENUM_GT; Sums.IOPSENUM_LT; Sums.IOPSENUM_GTE; Sums.IOPSENUM_LTE] ->
  is_numeric x = true -> is_numeric y = true ->
  (exists b, Sums.builtin_op M (Some e) [x; y] symbol iop = Ret (LBool b))
  /\ Sums.builtin_op M (Some e) [x] symbol iop = Ret x.
Proof.
  intros Hop Hx Hy.
  assert (Hsub : Sums.is_SUB iop = false).
  { simpl in Hop. destruct Hop as [<-|[<-|[<-|[<-|[]]]]]; reflexivity. }
  assert (Hcmp : exists b, Sums.do_calc M iop x y = Ret (LBool b)).
  { simpl in Hop.
    destruct x; try discriminate Hx; destruct y; try discriminate Hy;
      destruct Hop as [<-|[<-|[<-|[<-|[]]]]]; eexists; reflexivity. }
  destruct Hcmp as [b Hb].
  split.
  - exists b. unfold Sums.builtin_op, builtin_op_body.
    rewrite check_numeric_all by (repeat constructor; assumption).
    cbn [lval_pop_head mbind outcome_bind length Nat.eqb andb calc_loop].
    rewrite Hb. reflexivity.
  - unfold Sums.builtin_op, builtin_op_body.
    rewrite check_numeric_all by (repeat constructor; assumption).
    cbn [lval_pop_head mbind outcome_bind length Nat.eqb andb]. rewrite Hsub.
    reflexivity.
Qed.

Lemma comparisons_take_two_numbers_witness :
  (exists b, Sums.builtin_op libm_unused (Some tt) [LLong 3; LDouble (double_of_long 2)] ">"
               Sums.IOPSENUM_GT = Ret (LBool b))
  /\ Sums.builtin_op libm_unused (Some tt) [LLong 3] ">" Sums.IOPSENUM_GT = Ret (LLong 3).
Proof.
  apply (comparisons_take_two_numbers libm_unused tt ">" Sums.IOPSENUM_GT
           (LLong 3) (LDouble (double_of_long 2))).
  - left. reflexivity.
  - reflexivity.
  - reflexivity.
Defined.

(** ** Function application *)

Module ApplyFacts.
Import Eval.

(** Values that evaluate to themselves and are no errors come out of the
    first two loops of [lval_eval_sexpr] as they went in. *)
Lemma eval_children_values (M : libm) (fuel : nat) (env : option lenv) : forall cells,
  Forall (fun v => self_evaluating v = true) cells ->
  eval_children (lval_eval M (S fuel)) env cells = Ret (cells, env).
Proof.
  induction 1 as [|v cells Hv _ IH]; [reflexivity|].
  cbn [eval_children].
  assert (Hev : lval_eval M (S fuel) env v = Ret (v, env)).
  { destruct v; try discriminate Hv; reflexivity. }
  rewrite Hev. cbn [mbind outcome_bind]. rewrite IH. reflexivity.
Qed.

Lemma first_error_none : forall cells,
  Forall (fun v => is_error v = false) cells -> first_error cells = None.
Proof.
  induction 1 as [|v cells Hv _ IH]; [reflexivity|].
  cbn [first_error]. unfold is_error in Hv. rewrite Hv, IH. reflexivity.
Qed.

(** X22.  Function application.  When the symbol at the head of an
    S-expression resolves to a builtin and the arguments, at least one,
    are values that evaluate to themselves and are no errors, evaluating
    the S-expression is the call of that builtin on the bundle of the
    arguments, in the same scope and under the symbol the builtin was
    registered with; in particular [eval] applied to a Q-expression
    evaluates its cells as an S-expression. *)
Theorem application_calls_the_builtin (M : libm) (fuel : nat) (e : lenv)
    (name symbol : string) (f : lbuiltin) (args : list lval) :
  lenv_get (Some e) name = Ret (LBuiltin symbol f) ->
  args <> [] ->
  Forall (fun v => self_evaluating v = true) args ->
  Forall (fun v => is_error v = false) args ->
  lval_eval M (S (S fuel)) (Some e) (LSexpr (LSymbol name :: args))
  = call_builtin M (lval_eval M (S fuel)) f (Some e) symbol args
  /\ (f = Fn_eval -> forall q, args = [LQexpr q] ->
      lval_eval M (S (S fuel)) (Some e) (LSexpr (LSymbol name :: args))
      = lval_eval M (S fuel) (Some e) (LSexpr q)).
Proof.
  intros Hname Hne Hself Herr.
  assert (Hcall : lval_eval M (S (S fuel)) (Some e) (LSexpr (LSymbol name :: args))
                  = call_builtin M (lval_eval M (S fuel)) f (Some e) symbol args).
  { rewrite DefFacts.lval_eval_sexpr_step. unfold lval_eval_sexpr. cbn [eval_children].
    assert (Hsym : lval_eval M (S fuel) (Some e) (LSymbol name)
                   = Ret (LBuiltin symbol f, Some e)).
    { cbn [lval_eval]. rewrite Hname. reflexivity. }
    rewrite Hsym. cbn [mbind outcome_bind].
    rewrite (eval_children_values M fuel (Some e) args Hself). cbn [mbind outcome_bind].
    cbn [first_error type_of]. rewrite bool_decide_eq_false_2 by discriminate.
    rewrite (first_error_none args Herr). cbn [fmap option_fmap option_map].
    destruct args as [|a args']; [contradiction|]. reflexivity. }
  split; [exact Hcall|].
  intros -> q ->. rewrite Hcall. reflexivity.
Qed.

Lemma application_calls_the_builtin_witness :
  lval_eval libm_unused 2 (Some top_env) (LSexpr [LSymbol "eval"; LQexpr [LSymbol "+"; LLong 1; LLong 2]])
  = call_builtin libm_unused (lval_eval libm_unused 1) Fn_eval (Some top_env) "eval"
      [LQexpr [LSymbol "+"; LLong 1; LLong 2]]
  /\ (Fn_eval = Fn_eval -> forall q, [LQexpr [LSymbol "+"; LLong 1; LLong 2]] = [LQexpr q] ->
      lval_eval libm_unused 2 (Some top_env)
        (LSexpr [LSymbol "eval"; LQexpr [LSymbol "+"; LLong 1; LLong 2]])
      = lval_eval libm_unused 1 (Some top_env) (LSexpr q)).
Proof.
  apply (application_calls_the_builtin libm_unused 0 top_env "eval" "eval" Fn_eval
           [LQexpr [LSymbol "+"; LLong 1; LLong 2]]).
  - vm_compute. reflexivity.
  - discriminate.
  - repeat constructor.
  - repeat constructor.
Defined.

End ApplyFacts.

(** ** [lenv_to_lval] *)

Lemma foldl_lval_add_map {A : Type} (f : A -> lval) : forall (l : list A) (acc : list lval),
  foldl (fun rv x => lval_add rv (f x)) acc l = (acc ++ map f l)%list.
Proof.
  induction l as [|x l IH]; intros acc; simpl.
  - rewrite app_nil_r. reflexivity.
  - rewrite IH. unfold lval_add. rewrite <- app_assoc. reflexivity.
Qed.

(** X24.  [lenv_to_lval] returns a Q-expression with one cell per
    binding of the environment's own table: a name is bound to a value
    there exactly when the pair of the name, as a string, and the value is
    among the cells; bindings of the parent do not appear. *)
Theorem lenv_to_lval_lists_own_bindings (parent : option lenv) (table : gmap string lval)
    (read_only : bool) :
  exists cells,
    lenv_to_lval (Lenv parent table read_only) = LQexpr cells
    /\ length cells = size table
    /\ (forall k v, table !! k = Some v <-> LQexpr [LString k; v] ∈ cells)
    /\ Forall (fun c => exists k v, c = LQexpr [LString k; v] /\ table !! k = Some v) cells.
Proof.
  exists (map (fun kv : string * lval => LQexpr [LString kv.1; lval_copy kv.2]) (map_to_list table)).
  split; [|split; [|split]].
  - unfold lenv_to_lval. cbn [lenv_table].
    rewrite (foldl_lval_add_map
               (fun kv : string * lval =>
                  LQexpr (lval_add (lval_add [] (LString kv.1)) (lval_copy kv.2)))).
    reflexivity.
  - rewrite length_map. apply length_map_to_list.
  - intros k v. split.
    + intros Hk. apply elem_of_map_to_list in Hk.
      apply list_elem_of_fmap. exists (k, v). split; [|exact Hk].
      cbn [fst snd]. rewrite EvalFacts.lval_copy_id. reflexivity.
    + intros Hin. apply list_elem_of_fmap in Hin as ([k' v'] & Heq & Hkv).
      cbn [fst snd] in Heq. rewrite EvalFacts.lval_copy_id in Heq.
      injection Heq as -> ->. apply elem_of_map_to_list. exact Hkv.
  - apply Forall_forall. intros c Hin.
    apply list_elem_of_fmap in Hin as ([k v] & -> & Hkv).
    exists k, v. cbn [fst snd]. rewrite EvalFacts.lval_copy_id.
    split; [reflexivity|]. apply elem_of_map_to_list. exact Hkv.
Qed.

(** ** Environments in memory *)

Module MemMoreFacts.
Import Mem.

(** A copy stays a copy when the heaps agree on every object that is not
    an object of the original heap. *)
Lemma copy_of_agree n : forall (h0 : heap) p (h h' : heap) r,
  (forall l, l ∉ dom h0 -> h' !! l = h !! l) ->
  copy_of n h0 p h r -> copy_of n h0 p h' r.
Proof.
  induction n as [|n IH]; intros h0 p h h' r Hagree; [intros []|].
  simpl. intros [Hfresh Hshape]. split; [exact Hfresh|].
  rewrite (Hagree r Hfresh).
  destruct (h0 !! p) as [[a|]|]; try contradiction.
  destruct (h !! r) as [[b|]|] eqn:Hr; try contradiction.
  destruct a, b; try contradiction; try exact Hshape.
  - destruct Hshape as ((He & Henv) & Hf & Hb).
    split; [split; [exact He|] | split; eapply IH; eassumption].
    rewrite (Hagree _ He).
    destruct (h0 !! env) as [[|ec]|]; try contradiction.
    destruct (h !! env0) as [[|ec']|]; try contradiction.
    destruct Henv as (Hp & Hro & Ht). split; [exact Hp|]. split; [exact Hro|].
    intros k. eapply MemFacts.option_Forall2_mono; [|apply Ht].
    intros c c'. apply IH. exact Hagree.
  - eapply Forall2_impl; [exact Hshape|]. intros c c'. apply IH. exact Hagree.
  - eapply Forall2_impl; [exact Hshape|]. intros c c'. apply IH. exact Hagree.
Qed.

(** X25.  [lenv_copy] of an environment that binds well-formed values
    returns a new environment object and leaves every existing object as
    it was; the new environment has the same parent link and the same
    read-only flag, binds the same names, and binds each of them to a copy
    made of new objects. *)
Theorem lenv_copy_is_a_new_environment_of_copies
    (fuel : nat) (h : heap) (e : loc) (ec : lenv_cell) :
  h !! e = Some (CEnv ec) ->
  map_Forall (fun _ x => wf_val fuel h x) (table ec) ->
  exists e' (h' : heap) ec',
    lenv_copy (lval_copy fuel) e h = Ret (e', h')
    /\ h ⊆ h' /\ (e' ∉ dom h)
    /\ h' !! e' = Some (CEnv ec')
    /\ parent ec' = parent ec /\ read_only ec' = read_only ec
    /\ forall k, option_Forall2 (fun c c' => copy_of fuel h c h' c')
                   (table ec !! k) (table ec' !! k).
Proof.
  intros He Hwf.
  destruct (MemFacts.copy_table_spec fuel h (lval_copy fuel) (MemFacts.lval_copy_spec fuel h)
              (table ec) h (reflexivity h) Hwf) as (t' & h1 & Ht & Hsub1 & Hrel).
  pose (ec' := {| parent := parent ec; table := t'; read_only := read_only ec |}).
  destruct (MemFacts.malloc_spec h1 (CEnv ec')) as (Hfresh & Hgrow & Hat).
  exists (fresh (dom h1)), (<[fresh (dom h1) := CEnv ec']> h1), ec'.
  split; [|split; [|split; [|split; [|split; [|split]]]]].
  - unfold lenv_copy. rewrite He, Ht. reflexivity.
  - etransitivity; [exact Hsub1 | exact Hgrow].
  - eapply MemFacts.fresh_in_smaller; [exact Hsub1 | exact Hfresh].
  - exact Hat.
  - reflexivity.
  - reflexivity.
  - intros k. eapply MemFacts.option_Forall2_mono; [|apply Hrel].
    intros c c'. apply MemFacts.copy_of_mono. exact Hgrow.
Qed.

Lemma lenv_copy_is_a_new_environment_of_copies_witness :
  exists e' (h' : heap) ec',
    lenv_copy (lval_copy 2) 0%nat example_heap = Ret (e', h')
    /\ example_heap ⊆ h' /\ (e' ∉ dom example_heap)
    /\ h' !! e' = Some (CEnv ec')
    /\ parent ec' = None /\ read_only ec' = false
    /\ forall k, option_Forall2 (fun c c' => copy_of 2 example_heap c h' c')
                   (({[ "x" := 1%nat ]} : gmap string loc) !! k) (table ec' !! k).
Proof.
  apply (lenv_copy_is_a_new_environment_of_copies 2 example_heap 0%nat
           {| parent := None; table := {[ "x" := 1%nat ]}; read_only := false |} eq_refl).
  cbn [table]. apply map_Forall_singleton. vm_compute. repeat constructor.
Defined.

(** X26.  [lenv_put] in memory.  On a read-only environment that binds
    the key nothing changes.  Otherwise the environment binds the key to a
    copy of the value, made of new objects only: the value handed in is
    not shared with the table, every other binding, the parent link and
    the flag are as before, and no object other than the environment
    itself has changed. *)
Theorem lenv_put_binds_a_copy (fuel : nat) (h : heap) (e : loc) (ec : lenv_cell)
    (k : string) (v : loc) :
  h !! e = Some (CEnv ec) ->
  (read_only ec = true -> is_Some (table ec !! k) -> lenv_put fuel e k v h = Ret (true, h))
  /\ (read_only ec = false \/ table ec !! k = None -> wf_val fuel h v ->
      exists v' (h' : heap),
        lenv_put fuel e k v h = Ret (false, h')
        /\ h' !! e = Some (CEnv {| parent := parent ec; table := <[k := v']> (table ec);
                                   read_only := read_only ec |})
        /\ copy_of fuel h v h' v'
        /\ (forall l, l ∈ dom h -> l <> e -> h' !! l = h !! l)).
Proof.
  intros He. split.
  - intros Hro Hbound. unfold lenv_put. rewrite He, Hro.
    rewrite bool_decide_eq_true_2 by exact Hbound. reflexivity.
  - intros Hfree Hwf.
    destruct (MemFacts.lval_copy_spec fuel h h v (reflexivity h) Hwf)
      as (v' & h1 & Hcopy & Hsub & Hcopy_of).
    exists v', (<[e := CEnv {| parent := parent ec; table := <[k := v']> (table ec);
                               read_only := read_only ec |}]> h1).
    split; [|split; [|split]].
    + unfold lenv_put. rewrite He.
      assert (Hguard : read_only ec && bool_decide (is_Some (table ec !! k)) = false).
      { destruct Hfree as [-> | Hnone]; [reflexivity|].
        rewrite Hnone. rewrite bool_decide_eq_false_2 by (intros [? ?]; discriminate).
        apply andb_false_r. }
      rewrite Hguard, Hcopy. reflexivity.
    + apply lookup_insert_eq.
    + eapply copy_of_agree; [|exact Hcopy_of].
      intros l Hl. apply lookup_insert_ne. intros <-.
      apply Hl. apply elem_of_dom. eexists. exact He.
    + intros l Hl Hne. rewrite lookup_insert_ne by congruence.
      apply elem_of_dom in Hl as [c Hc]. rewrite Hc.
      eapply lookup_weaken; eassumption.
Qed.

Lemma lenv_put_binds_a_copy_witness :
  lenv_put 2 0%nat "y" 1%nat
    (<[0%nat := CEnv {| parent := None; table := {[ "y" := 2%nat ]}; read_only := true |}]>
       example_heap)
  = Ret (true, <[0%nat := CEnv {| parent := None; table := {[ "y" := 2%nat ]}; read_only := true |}]>
                 example_heap)
  /\ exists v' (h' : heap),
       lenv_put 2 3%nat "y" 1%nat example_heap = Ret (false, h')
       /\ h' !! 3%nat = Some (CEnv {| parent := Some 0%nat; table := <["y" := v']> ∅;
                                      read_only := false |})
       /\ copy_of 2 example_heap 1%nat h' v'
       /\ (forall l, l ∈ dom example_heap -> l <> 3%nat -> h' !! l = example_heap !! l).
Proof.
  split.
  - destruct (lenv_put_binds_a_copy 2
                (<[0%nat := CEnv {| parent := None; table := {[ "y" := 2%nat ]}; read_only := true |}]>
                   example_heap) 0%nat
                {| parent := None; table := {[ "y" := 2%nat ]}; read_only := true |}
                "y" 1%nat (lookup_insert_eq _ _ _)) as [Hrefused _].
    apply Hrefused; [reflexivity | eexists; reflexivity].
  - destruct (lenv_put_binds_a_copy 2 example_heap 3%nat
                {| parent := Some 0%nat; table := ∅; read_only := false |}
                "y" 1%nat eq_refl) as [_ Hmade].
    apply Hmade; [left; reflexivity|]. vm_compute. repeat constructor.
Defined.

End MemMoreFacts.

Module MemDelFacts.
Import Mem.

#[local] Set Warnings "-clear-no-such-hyp".

(** ** Copies are released in full *)

Section release.
Variable lenv_del : loc -> heap -> outcome heap.

Lemma released_scalar (n : nat) (h : heap) (x : node) :
  match x with NUserFun _ _ _ | NSexpr _ | NQexpr _ => False | _ => True end ->
  released_by (lval_del lenv_del (S n) (fresh (dom h))) h (<[fresh (dom h) := CVal x]> h).
Proof.
  intros Hx. destruct (MemFacts.malloc_spec h (CVal x)) as (Hfresh & Hgrow & Hat).
  set (r := fresh (dom h)) in *. clearbody r.
  exists {[ r ]}. split; [set_solver|]. split; [|split; [exact Hgrow|]].
  - rewrite dom_insert_L. set_solver.
  - intros g Hagree.
    assert (Hr : g !! r = Some (CVal x)).
    { rewrite (Hagree (r)) by set_solver. exact Hat. }
    exists (delete (r) g). split.
    + cbn [lval_del]. rewrite Hr. unfold free. rewrite Hr.
      destruct x; try contradiction; reflexivity.
    + intros l. destruct (decide (l ∈ ({[r]} : gset loc))) as [Hin|Hout].
      * apply elem_of_singleton in Hin as ->. apply lookup_delete_eq.
      * apply lookup_delete_ne. set_solver.
Qed.

Section cells.
Variables (n : nat) (h0 : heap).
Hypothesis IH : forall (h : heap) p r (h' : heap),
  h0 ⊆ h -> plain_val n h0 p -> lval_copy n p h = Ret (r, h') ->
  released_by (lval_del lenv_del n r) h h'.

Lemma released_cells : forall cells (h : heap) cells' (h1 : heap),
  h0 ⊆ h -> Forall (plain_val n h0) cells ->
  copy_cells (lval_copy n) cells h = Ret (cells', h1) ->
  released_by (del_cells (lval_del lenv_del n) cells') h h1.
Proof.
  induction cells as [|c cells IHcells]; intros h cells' h1 Hsub Hall Hcopy.
  - injection Hcopy as <- <-. exists ∅.
    split; [set_solver|]. split; [set_solver|]. split; [reflexivity|].
    intros g _. exists g. split; [reflexivity|]. intros l.
    destruct (decide (l ∈ (∅ : gset loc))); [set_solver | reflexivity].
  - apply Forall_cons in Hall as [Hc Hall].
    cbn [copy_cells mbind outcome_bind] in Hcopy.
    destruct (lval_copy n c h) as [[c' ha]| |] eqn:Hcc; try discriminate.
    cbn [mbind outcome_bind] in Hcopy.
    destruct (copy_cells (lval_copy n) cells ha) as [[rest hb]| |] eqn:Hrest; try discriminate.
    injection Hcopy as <- <-.
    destruct (IH h c c' ha Hsub Hc Hcc) as (Fa & Hda & Hdoma & Hsuba & Hdela).
    assert (Hsub0a : h0 ⊆ ha) by (etransitivity; eassumption).
    destruct (IHcells ha rest hb Hsub0a Hall Hrest) as (Fb & Hdb & Hdomb & Hsubb & Hdelb).
    exists (Fa ∪ Fb). split; [|split; [|split]].
    + rewrite Hdoma in Hdb. set_solver.
    + rewrite Hdomb, Hdoma. set_solver.
    + etransitivity; eassumption.
    + intros g Hagree.
      destruct (Hdela g) as (ga & Hda_run & Hda_look).
      { intros l Hl. rewrite (Hagree l) by set_solver.
        assert (Hin : l ∈ dom ha) by (rewrite Hdoma; set_solver).
        apply elem_of_dom in Hin as [x Hx]. rewrite Hx.
        eapply lookup_weaken; eassumption. }
      destruct (Hdelb ga) as (gb & Hdb_run & Hdb_look).
      { intros l Hl. rewrite Hda_look.
        destruct (decide (l ∈ Fa)) as [Hin|_].
        - exfalso. rewrite Hdoma in Hdb. set_solver.
        - apply Hagree. set_solver. }
      exists gb. split.
      * cbn [del_cells mbind outcome_bind]. rewrite Hda_run. exact Hdb_run.
      * intros l. rewrite Hdb_look, Hda_look.
        destruct (decide (l ∈ Fb)), (decide (l ∈ Fa)), (decide (l ∈ Fa ∪ Fb));
          try reflexivity; set_solver.
Qed.

End cells.

Lemma released_copy n : forall (h0 h : heap) p r (h' : heap),
  h0 ⊆ h -> plain_val n h0 p -> lval_copy n p h = Ret (r, h') ->
  released_by (lval_del lenv_del n r) h h'.
Proof.
  induction n as [|n IH]; intros h0 h p r h' Hsub Hplain Hcopy; [destruct Hplain|].
  simpl in Hplain. destruct (h0 !! p) as [[a|]|] eqn:Hp; try contradiction.
  pose proof (lookup_weaken _ _ _ _ Hp Hsub) as Hp'.
  cbn [lval_copy] in Hcopy. rewrite Hp' in Hcopy.
  assert (Hlist : forall cells cells' (h1 : heap) (x : node),
             (x = NSexpr cells' \/ x = NQexpr cells') ->
             Forall (plain_val n h0) cells ->
             copy_cells (lval_copy n) cells h = Ret (cells', h1) ->
             released_by (lval_del lenv_del (S n) (fresh (dom h1))) h (<[fresh (dom h1) := CVal x]> h1)).
  { intros cells cells' h1 x Hx Hall Hcells.
    destruct (released_cells n h0 (fun h p r h' => IH h0 h p r h') cells h cells' h1 Hsub Hall Hcells)
      as (Fc & Hdc & Hdomc & Hsubc & Hdelc).
    destruct (MemFacts.malloc_spec h1 (CVal x)) as (Hfresh & Hgrow & Hat).
    set (r1 := fresh (dom h1)) in *. clearbody r1.
    exists (Fc ∪ {[ r1 ]}). split; [|split; [|split]].
    - rewrite Hdomc in Hfresh. set_solver.
    - rewrite dom_insert_L, Hdomc. set_solver.
    - etransitivity; eassumption.
    - intros g Hagree.
      assert (Hr : g !! r1 = Some (CVal x)).
      { rewrite (Hagree (r1)) by set_solver. exact Hat. }
      destruct (Hdelc g) as (g1 & Hrun & Hlook).
      { intros l Hl. rewrite (Hagree l) by set_solver.
        apply lookup_insert_ne. intros <-. apply Hfresh. rewrite Hdomc. set_solver. }
      assert (Hr1 : g1 !! r1 = Some (CVal x)).
      { rewrite Hlook. destruct (decide (r1 ∈ Fc)) as [Hin|_]; [|exact Hr].
        exfalso. apply Hfresh. rewrite Hdomc. set_solver. }
      exists (delete (r1) g1). split.
      + cbn [lval_del]. rewrite Hr.
        destruct Hx as [-> | ->]; cbn [mbind outcome_bind]; rewrite Hrun;
          cbn [mbind outcome_bind]; unfold free; rewrite Hr1; reflexivity.
      + intros l. destruct (decide (l = r1)) as [-> | Hne].
        * rewrite lookup_delete_eq.
          destruct (decide (r1 ∈ Fc ∪ {[r1]})); [reflexivity | set_solver].
        * rewrite lookup_delete_ne by congruence. rewrite Hlook.
          destruct (decide (l ∈ Fc)), (decide (l ∈ Fc ∪ {[r1]}));
            try reflexivity; set_solver. }
  destruct a as [x|x|x|x|x|x|x|e f b|cells|cells]; try contradiction;
    try (injection Hcopy as <- <-; apply released_scalar; exact I).
  - cbn [mbind outcome_bind] in Hcopy.
    destruct (copy_cells (lval_copy n) cells h) as [[cells' h1]| |] eqn:Hcells; try discriminate.
    injection Hcopy as <- <-.
    apply (Hlist cells cells' h1 _ (or_introl eq_refl) Hplain Hcells).
  - cbn [mbind outcome_bind] in Hcopy.
    destruct (copy_cells (lval_copy n) cells h) as [[cells' h1]| |] eqn:Hcells; try discriminate.
    injection Hcopy as <- <-.
    apply (Hlist cells cells' h1 _ (or_intror eq_refl) Hplain Hcells).
Qed.

Lemma plain_val_wf n : forall (h : heap) v, plain_val n h v -> wf_val n h v.
Proof.
  induction n as [|n IH]; intros h v; [exact id|].
  simpl. destruct (h !! v) as [[a|]|]; try exact id.
  destruct a as [x|x|x|x|x|x|x|e f b|cells|cells]; try exact id.
  - intros [].
  - intros Hall. eapply Forall_impl; [exact Hall | apply IH].
  - intros Hall. eapply Forall_impl; [exact Hall | apply IH].
Qed.

(** X27.  A value with no user function in it is copied by [lval_copy]
    into objects that [lval_del] releases in full: deleting the copy
    returns, gives back the heap as it was before the copy, whatever
    [lenv_del] does, and deleting the copy a second time has no defined
    behaviour. *)
Theorem deleting_a_copy_restores_the_heap (n : nat) (h : heap) (p : loc) :
  plain_val n h p ->
  exists r (h' : heap),
    lval_copy n p h = Ret (r, h')
    /\ lval_del lenv_del n r h' = Ret h
    /\ forall m, lval_del lenv_del (S m) r h = Undef.
Proof.
  intros Hplain.
  destruct (MemFacts.lval_copy_spec n h h p (reflexivity h) (plain_val_wf n h p Hplain))
    as (r & h' & Hcopy & Hsub & Hcopy_of).
  exists r, h'. split; [exact Hcopy|].
  destruct (released_copy n h h p r h' (reflexivity h) Hplain Hcopy)
    as (F & Hdisj & Hdom & _ & Hdel).
  destruct (Hdel h' (fun l _ => eq_refl)) as (g' & Hrun & Hlook).
  split.
  - rewrite Hrun. f_equal. apply map_eq. intros l. rewrite Hlook.
    destruct (decide (l ∈ F)) as [Hin|Hout].
    + symmetry. apply not_elem_of_dom. set_solver.
    + destruct (h !! l) as [c|] eqn:Hl.
      * eapply lookup_weaken; eassumption.
      * apply not_elem_of_dom. apply not_elem_of_dom in Hl. rewrite Hdom. set_solver.
  - intros m. cbn [lval_del].
    assert (Hr : h !! r = None).
    { destruct n; [destruct Hcopy_of|]. destruct Hcopy_of as [Hfresh _].
      apply not_elem_of_dom. exact Hfresh. }
    rewrite Hr. reflexivity.
Qed.

End release.

Lemma deleting_a_copy_restores_the_heap_witness :
  exists r (h' : heap),
    lval_copy 2 1%nat example_heap = Ret (r, h')
    /\ lval_del (fun _ _ => Undef) 2 r h' = Ret example_heap
    /\ forall m, lval_del (fun _ _ => Undef) (S m) r example_heap = Undef.
Proof.
  apply (deleting_a_copy_restores_the_heap (fun _ _ => Undef) 2 example_heap 1%nat).
  vm_compute. repeat constructor.
Defined.

End MemDelFacts.
